(** * labels.py: validator, W3C merge and repository sync

    A shallow embedding of [labels.py].  Labels are JSON objects, modelled
    as finite maps from string keys to JSON scalars; Python exceptions are
    an explicit error type; printing, the two files the script writes and
    the GitHub label store are fields of an explicit world that is threaded
    through the effectful functions. *)

From Stdlib Require Import ZArith Ascii String List Lia DecimalString.
From Stdlib Require OrderedTypeEx Permutation Sorted.
From stdpp Require Import base option list strings gmap fin_maps.

Open Scope string_scope.
Open Scope list_scope.
Open Scope Z_scope.

(** ** Values

    [json.load] yields [None], booleans, integers and strings for the
    fields of a label.  Characters are the code points below 256, one
    [ascii] each; floating-point numbers and nested arrays or objects as
    field values are outside the model. *)

Inductive json :=
| JNull
| JBool (b : bool)
| JInt (n : Z)
| JStr (s : string).

Abbreviation label := (gmap string json).

(** ** Exceptions *)

Inductive exn := KeyError | TypeError | AttributeError | AssertionError | IndexError.

Inductive result (A : Type) :=
| Ok (a : A)
| Raise (e : exn).
Arguments Ok {A} a.
Arguments Raise {A} e.

#[global] Instance result_ret : MRet result := fun A a => Ok a.
#[global] Instance result_bind : MBind result := fun A B f m =>
  match m with
  | Ok a => f a
  | Raise e => Raise e
  end.

(** [d[k]] *)
Definition getitem (d : label) (k : string) : result json :=
  match d !! k with
  | Some v => Ok v
  | None => Raise KeyError
  end.

(** [k in d] *)
Definition contains (k : string) (d : label) : bool := bool_decide (is_Some (d !! k)).

(** [l[i]] for [0 <= i] *)
Definition list_getitem {A} (l : list A) (i : nat) : result A :=
  match l !! i with
  | Some x => Ok x
  | None => Raise IndexError
  end.

(** The integer a boolean or integer value compares as: [True == 1] and
    [False == 0] in Python. *)
Definition as_number (v : json) : option Z :=
  match v with
  | JBool b => Some (if b then 1 else 0)
  | JInt n => Some n
  | _ => None
  end.

(** [a == b] *)
Definition py_eq (a b : json) : bool :=
  match a, b with
  | JNull, JNull => true
  | JStr s, JStr t => bool_decide (s = t)
  | _, _ =>
      match as_number a, as_number b with
      | Some x, Some y => x =? y
      | _, _ => false
      end
  end.

(** [a != b] *)
Definition py_ne (a b : json) : bool := negb (py_eq a b).

(** [a + b] where [a] is a string *)
Definition str_add (a : string) (b : json) : result string :=
  match b with
  | JStr s => Ok (a +:+ s)
  | _ => Raise TypeError
  end.

(** [str(n)] for an integer *)
Definition str_of_int (n : Z) : string :=
  match n with
  | Z0 => "0"
  | _ => NilZero.string_of_int (Z.to_int n)
  end.

(** [str(v)], as [str.format] renders a value *)
Definition py_str (v : json) : string :=
  match v with
  | JNull => "None"
  | JBool true => "True"
  | JBool false => "False"
  | JInt n => str_of_int n
  | JStr s => s
  end.

(** [c.lower()] on the code points below 256: the ASCII capitals and the
    Latin-1 capitals U+00C0..U+00DE other than the multiplication sign. *)
Definition lower_char (c : ascii) : ascii :=
  let n := N_of_ascii c in
  if ((65 <=? n) && (n <=? 90))%N then ascii_of_N (n + 32)
  else if ((192 <=? n) && (n <=? 222) && negb (n =? 215))%N then ascii_of_N (n + 32)
  else c.

Fixpoint str_lower (s : string) : string :=
  match s with
  | EmptyString => EmptyString
  | String c s' => String (lower_char c) (str_lower s')
  end.

(** [v.lower()]: only strings have the method *)
Definition lower (v : json) : result json :=
  match v with
  | JStr s => Ok (JStr (str_lower s))
  | _ => Raise AttributeError
  end.

(** ** Regular expressions

    The fragment of Python's [re] that the script uses: literal
    characters, [.], greedy [+] over a single-character atom,
    concatenation and the capture group.  The matcher backtracks in
    Python's order (a greedy [+] first tries the longest run). *)

Inductive atom :=
| ALit (c : ascii)
| ADot.

Inductive regex :=
| RAtom (a : atom)
| RPlus (a : atom)
| RCat (r1 r2 : regex)
| RGroup (r : regex).

Definition atom_matches (a : atom) (c : ascii) : bool :=
  match a with
  | ALit c' => bool_decide (c = c')
  | ADot => negb (bool_decide (c = "010"%char))
  end.

(** The part of [s] in front of its suffix [rest] *)
Definition consumed (s rest : list ascii) : list ascii :=
  take (length s - length rest)%nat s.

Section matcher.
Context {X : Type}.

(** A continuation receives the rest of the input and the text of
    group 1, if the group has matched. *)
Definition cont := list ascii → option (list ascii) → option X.

Fixpoint match_plus (a : atom) (s : list ascii) (g : option (list ascii)) (k : cont) : option X :=
  match s with
  | [] => None
  | c :: s' =>
      if atom_matches a c then
        match match_plus a s' g k with
        | Some x => Some x
        | None => k s' g
        end
      else None
  end.

Fixpoint match_re (r : regex) (s : list ascii) (g : option (list ascii)) (k : cont) : option X :=
  match r with
  | RAtom a =>
      match s with
      | c :: s' => if atom_matches a c then k s' g else None
      | [] => None
      end
  | RPlus a => match_plus a s g k
  | RCat r1 r2 => match_re r1 s g (fun s' g' => match_re r2 s' g' k)
  | RGroup r' => match_re r' s g (fun s' _ => k s' (Some (consumed s s')))
  end.
End matcher.

(** [re.match(r, s)]: the text of group 1 and the rest of the input *)
Definition match_at (r : regex) (s : list ascii) : option (list ascii * list ascii) :=
  match_re r s None (fun rest g => Some (default [] g, rest)).

(** [re.sub(r, "\\1", s)] for a pattern that matches no empty string:
    scan left to right; where the pattern matches, emit group 1 and
    resume after the match ([skip] counts the matched characters still
    to pass over); elsewhere copy the character. *)
Fixpoint sub_group1 (r : regex) (s : list ascii) (skip : nat) : list ascii :=
  match s with
  | [] => []
  | c :: s' =>
      match skip with
      | S n => sub_group1 r s' n
      | O =>
          match match_at r s with
          | Some (g, rest) => g ++ sub_group1 r s' (length s' - length rest)
          | None => c :: sub_group1 r s' 0
          end
      end
  end.

(** The pattern [\[(.+)\]\(.+\)] *)
Definition markdown_link : regex :=
  RCat (RAtom (ALit "["))
    (RCat (RGroup (RPlus ADot))
       (RCat (RAtom (ALit "]"))
          (RCat (RAtom (ALit "("))
             (RCat (RPlus ADot) (RAtom (ALit ")")))))).

Definition re_sub_markdown_link (s : string) : string :=
  string_of_list_ascii (sub_group1 markdown_link (list_ascii_of_string s) 0).

(** [remove_markdown_links(input)]; [re.sub] rejects a value that is not a
    string. *)
Definition remove_markdown_links (input : json) : result string :=
  match input with
  | JStr s => Ok (re_sub_markdown_link s)
  | _ => Raise TypeError
  end.

(** ** The world

    What the script can observe and change: the record set persisted in
    [labels.json] (kept parsed: the byte format is [json.dumps]' business),
    the generated [LABELS.md], the lines printed so far, the HTTP requests
    sent so far, and the remote store, which answers the request that
    ends the log with a status code. *)

Record request := {
  req_method : string;
  req_url : string;
  req_token : string;
  req_body : option label
}.

Record world := {
  labels_json : list label;
  labels_md : string;
  stdout : list string;
  requests : list request;
  remote : list request → Z
}.

Definition set_labels_json (ls : list label) (w : world) : world :=
  {| labels_json := ls; labels_md := labels_md w; stdout := stdout w;
     requests := requests w; remote := remote w |}.

Definition set_labels_md (s : string) (w : world) : world :=
  {| labels_json := labels_json w; labels_md := s; stdout := stdout w;
     requests := requests w; remote := remote w |}.

Definition add_stdout (lines : list string) (w : world) : world :=
  {| labels_json := labels_json w; labels_md := labels_md w; stdout := stdout w ++ lines;
     requests := requests w; remote := remote w |}.

Definition add_requests (rs : list request) (w : world) : world :=
  {| labels_json := labels_json w; labels_md := labels_md w; stdout := stdout w;
     requests := requests w ++ rs; remote := remote w |}.

(** A computation runs in a world and ends in a value or an exception;
    what it printed and sent before an exception stays done. *)
Definition M (A : Type) : Type := world → result A * world.

#[global] Instance M_ret : MRet M := fun A a w => (Ok a, w).
#[global] Instance M_bind : MBind M := fun A B f m w =>
  match m w with
  | (Ok a, w') => f a w'
  | (Raise e, w') => (Raise e, w')
  end.

Definition lift {A} (r : result A) : M A := fun w => (r, w).

Definition print (line : string) : M unit := fun w => (Ok tt, add_stdout [line] w).

(** Writing a file replaces its content. *)
Definition write_labels_json (labels : list label) : M unit :=
  fun w => (Ok tt, set_labels_json labels w).

Definition write_labels_md (output : string) : M unit :=
  fun w => (Ok tt, set_labels_md output w).

(** [for x in l: body(x)] *)
Fixpoint for_each {A} (l : list A) (body : A → M unit) : M unit :=
  match l with
  | [] => mret tt
  | x :: l' => body x ;; for_each l' body
  end.

(** [len(s)] *)
Definition len (s : string) : Z := Z.of_nat (String.length s).

(** ** Validator *)

(** One turn of the loop of [lint_labels]: the [if]/[elif] chain. *)
Definition lint_label (label : label) : M unit :=
  if negb (contains "name" label) then
    print "A label needs a name"
  else if negb (contains "description" label) then
    name ← lift (getitem label "name");
    s ← lift (str_add "A label (" name);
    print (s +:+ ") needs a description")
  else
    description ← lift (getitem label "description");
    stripped ← lift (remove_markdown_links description);
    if 100 <? len stripped then
      name ← lift (getitem label "name");
      s ← lift (str_add "GitHub will likely complain about the length of your label (" name);
      print (s +:+ ")'s description.")
    else if negb (contains "color" label) then
      name ← lift (getitem label "name");
      s ← lift (str_add "A label (" name);
      print (s +:+ ") needs a color")
    else
      bad_exclude ←
        (if contains "url_exclude_is_open" label then
           v ← lift (getitem label "url_exclude_is_open");
           mret (py_ne v (JBool true))
         else mret false);
      if bad_exclude : bool then
        name ← lift (getitem label "name");
        s ← lift (str_add "A label (" name);
        print (s +:+ ")'s url_exclude_is_open needs to be set to true if present.")
      else
        bad_w3c ←
          (if contains "w3c" label then
             v ← lift (getitem label "w3c");
             mret (py_ne v (JBool true))
           else mret false);
        if bad_w3c : bool then
          name ← lift (getitem label "name");
          s ← lift (str_add "A label (" name);
          print (s +:+ ")'s w3c needs to be set to true if present.")
        else mret tt.

Definition lint_labels (labels : list label) : M unit :=
  for_each labels lint_label.

(** ** Merger: [import_w3c_labels]

    [w3c_label_index] is a Python dict from names to positions in the
    feed.  Its iteration order is the order of first insertion, so it is
    kept as an association list; keys are compared the way a dict compares
    them, by [==] (equal keys have equal hashes). *)

Definition index := list (json * nat).

(** [k in d], [d[k]] *)
Fixpoint index_get (k : json) (d : index) : option nat :=
  match d with
  | [] => None
  | (k', v) :: d' => if py_eq k' k then Some v else index_get k d'
  end.

(** [d[k] = v]: an existing key keeps its place. *)
Fixpoint index_set (k : json) (v : nat) (d : index) : index :=
  match d with
  | [] => [(k, v)]
  | (k', v') :: d' => if py_eq k' k then (k', v) :: d' else (k', v') :: index_set k v d'
  end.

(** [del d[k]] *)
Fixpoint index_del (k : json) (d : index) : index :=
  match d with
  | [] => []
  | (k', v') :: d' => if py_eq k' k then d' else (k', v') :: index_del k d'
  end.

(** Lines 33-37: create a name index for the W3C labels. *)
Fixpoint build_index (labels : list label) (i : nat) (d : index) : result index :=
  match labels with
  | [] => Ok d
  | label :: rest =>
      name ← getitem label "name";
      build_index rest (S i) (index_set name i d)
  end.

(** Lines 45-47: the three assignments to a local label found upstream. *)
Definition overwrite (local upstream : label) : result label :=
  description ← getitem upstream "description";
  color ← getitem upstream "color";
  color ← lower color;
  Ok (<["w3c" := JBool true]> (<["color" := color]> (<["description" := description]> local))).

(** Lines 41-51: update local entries with new upstream information. *)
Fixpoint update_local (w3c_labels local_labels : list label) (d : index)
  : result (list label * index) :=
  match local_labels with
  | [] => Ok ([], d)
  | label :: rest =>
      name ← getitem label "name";
      match index_get name d with
      | Some w3c_index =>
          upstream ← list_getitem w3c_labels w3c_index;
          label' ← overwrite label upstream;
          '(rest', d') ← update_local w3c_labels rest (index_del name d);
          Ok (label' :: rest', d')
      | None =>
          if contains "w3c" label then Raise AssertionError
          else
            '(rest', d') ← update_local w3c_labels rest d;
            Ok (label :: rest', d')
      end
  end.

(** Lines 56-61: the record appended for an upstream label. *)
Definition adopted (upstream : label) : result label :=
  name ← getitem upstream "name";
  description ← getitem upstream "description";
  color ← getitem upstream "color";
  color ← lower color;
  Ok (<["name" := name]> (<["description" := description]>
       (<["color" := color]> (<["w3c" := JBool true]> ∅)))).

(** Lines 54-61: add new upstream information. *)
Fixpoint adopt_new (w3c_labels : list label) (d : index) : result (list label) :=
  match d with
  | [] => Ok []
  | (_, w3c_index) :: d' =>
      upstream ← list_getitem w3c_labels w3c_index;
      new ← adopted upstream;
      rest ← adopt_new w3c_labels d';
      Ok (new :: rest)
  end.

(** Lines 32-61, the in-memory merge: the value of [local_labels] that
    [import_w3c_labels] hands to [update_labels]. *)
Definition merge (local_labels w3c_labels : list label) : result (list label) :=
  w3c_label_index ← build_index w3c_labels 0 [];
  '(local_labels', w3c_label_index') ← update_local w3c_labels local_labels w3c_label_index;
  new ← adopt_new w3c_labels w3c_label_index';
  Ok (local_labels' ++ new).

(** ** Writing the record set and its documentation *)

(** [a < b] on sort keys: strings by code point, numbers by value; any
    other pair is not ordered. *)
Definition py_lt (a b : json) : result bool :=
  match a, b with
  | JStr s, JStr t => Ok (String.ltb s t)
  | _, _ =>
      match as_number a, as_number b with
      | Some x, Some y => Ok (x <? y)
      | _, _ => Raise TypeError
      end
  end.

(** Stable insertion by key: after every element that is not greater. *)
Fixpoint insert_by_key (x : json * label) (l : list (json * label)) : result (list (json * label)) :=
  match l with
  | [] => Ok [x]
  | y :: l' =>
      b ← py_lt x.1 y.1;
      if b : bool then Ok (x :: y :: l')
      else (l'' ← insert_by_key x l'; Ok (y :: l''))
  end.

Fixpoint sort_keyed (todo sorted : list (json * label)) : result (list (json * label)) :=
  match todo with
  | [] => Ok sorted
  | x :: todo' => sorted' ← insert_by_key x sorted; sort_keyed todo' sorted'
  end.

Fixpoint keyed (labels : list label) : result (list (json * label)) :=
  match labels with
  | [] => Ok []
  | label :: rest =>
      name ← getitem label "name";
      rest' ← keyed rest;
      Ok ((name, label) :: rest')
  end.

(** [labels.sort(key=lambda x: x["name"])]: the keys are computed first,
    then compared with [<] only; the sort is stable.  Keys that are all
    strings or all numbers are totally ordered, so every stable sort
    returns this list; any other two keys cannot be compared, and every
    comparison sort of two or more elements meets such a pair. *)
Definition sort_by_name (labels : list label) : result (list label) :=
  ks ← keyed labels;
  sorted ← sort_keyed ks [];
  Ok (sorted.*2).

(** [urllib.parse.quote]: letters, digits, [_.-~] and the characters of
    [safe] stay; every other character becomes the percent-encoding of
    its UTF-8 bytes. *)
Definition always_safe (c : ascii) : bool :=
  let n := N_of_ascii c in
  (((65 <=? n) && (n <=? 90)) || ((97 <=? n) && (n <=? 122)) || ((48 <=? n) && (n <=? 57))
   || (n =? 95) || (n =? 46) || (n =? 45) || (n =? 126))%N.

Definition hex_digit (n : N) : ascii :=
  if (n <? 10)%N then ascii_of_N (48 + n) else ascii_of_N (55 + n).

Definition percent (byte : N) : string :=
  String "%" (String (hex_digit (byte / 16)) (String (hex_digit (byte mod 16)) EmptyString)).

Definition quote_char (safe : ascii → bool) (c : ascii) : string :=
  let n := N_of_ascii c in
  if always_safe c || safe c then String c EmptyString
  else if (n <? 128)%N then percent n
  else percent (192 + n / 64) +:+ percent (128 + n mod 64).

Fixpoint quote_with (safe : ascii → bool) (s : string) : string :=
  match s with
  | EmptyString => EmptyString
  | String c s' => quote_char safe c +:+ quote_with safe s'
  end.

Definition is_char (c c' : ascii) : bool := bool_decide (c' = c).

Fixpoint replace_char (old new : ascii) (s : string) : string :=
  match s with
  | EmptyString => EmptyString
  | String c s' => String (if is_char old c then new else c) (replace_char old new s')
  end.

(** [urllib.parse.quote(v)], with its default [safe="/"] *)
Definition quote (v : json) : result string :=
  match v with
  | JStr s => Ok (quote_with (is_char "/") s)
  | _ => Raise TypeError
  end.

(** [urllib.parse.quote_plus(v)]: nothing extra is safe, and a space
    becomes [+]. *)
Definition quote_plus (v : json) : result string :=
  match v with
  | JStr s => Ok (replace_char " " "+" (quote_with (is_char " ") s))
  | _ => Raise TypeError
  end.

Definition newline : string := String "010" EmptyString.

Definition format_label (label : label) : result string :=
  name ← getitem label "name";
  quoted ← quote_plus name;
  let url := "https://github.com/search?q=org%3Awhatwg+label%3A%22" +:+ quoted +:+ "%22" in
  let url := if negb (contains "url_exclude_is_open" label) then url +:+ "+is%3Aopen" else url in
  name ← getitem label "name";
  description ← getitem label "description";
  Ok ("* [" +:+ py_str name +:+ "](" +:+ url +:+ "): " +:+ py_str description +:+ newline).

(** The two loops of [create_labels_docs]: the labels without ([want =
    false]) or with ([want = true]) the [w3c] key. *)
Fixpoint format_labels (want : bool) (labels : list label) (output : string) : result string :=
  match labels with
  | [] => Ok output
  | label :: rest =>
      if bool_decide (contains "w3c" label = want) then
        line ← format_label label;
        format_labels want rest (output +:+ line)
      else format_labels want rest output
  end.

Definition docs_header : string :=
  "<!-- Please do not edit this file directly. It is generated by labels.py -->" +:+ newline
  +:+ newline +:+ "# GitHub Labels" +:+ newline +:+ newline
  +:+ "These are labels used by all [WHATWG standards](https://spec.whatwg.org/):" +:+ newline
  +:+ newline.

Definition create_labels_docs (labels : list label) : M unit :=
  output ← lift (format_labels false labels docs_header);
  let output := output +:+ newline in
  let output := output
    +:+ "The following [W3C horizontal labels](https://w3c.github.io/issue-metadata.html#horizontal-reviews) can also be used:"
    +:+ newline +:+ newline in
  output ← lift (format_labels true labels output);
  write_labels_md output.

(** [get_labels(labels_resource)]: the script only ever reads
    [labels.json]. *)
Definition get_labels : M (list label) := fun w => (Ok (labels_json w), w).

Definition update_labels (labels : list label) : M unit :=
  lint_labels labels;;
  labels ← lift (sort_by_name labels);
  write_labels_json labels;;
  create_labels_docs labels.

(** [import_w3c_labels(labels_resource)]; [w3c_labels] is what
    [fetch_json] returned for the W3C feed. *)
Definition import_w3c_labels (w3c_labels : list label) : M unit :=
  local_labels ← get_labels;
  local_labels ← lift (merge local_labels w3c_labels);
  update_labels local_labels.

(** ** Sync engine: [adjust_repository_labels] *)

(** [fetch(token, url, method, body)]: send the request and return the
    status code of the response.  The body is the label itself, not its
    [json.dumps] text. *)
Definition fetch (token url method : string) (body : option label) : M Z :=
  fun w =>
    let w' := add_requests
      [{| req_method := method; req_url := url; req_token := token; req_body := body |}] w in
    (Ok (remote w' (requests w')), w').

Definition label_name_url (common_url : string) (label_name : json) : result string :=
  quoted ← quote label_name;
  Ok (common_url +:+ "/" +:+ quoted).

Definition error (type : string) (label_name : json) (status : Z) : M unit :=
  s ← lift (str_add (type +:+ " label: ") label_name);
  print (s +:+ "; status " +:+ str_of_int status).

Definition delete_label (common_url token : string) (label_name : json) : M unit :=
  target ← lift (label_name_url common_url label_name);
  status ← fetch token target "DELETE" None;
  if negb (status =? 200) && negb (status =? 404) then error "Deleting" label_name status
  else mret tt.

Definition update_label (common_url token : string) (label : label) : M Z :=
  name ← lift (getitem label "name");
  target ← lift (label_name_url common_url name);
  fetch token target "PATCH" (Some label).

Definition add_label (common_url token : string) (label : label) : M unit :=
  status ← fetch token common_url "POST" (Some label);
  if negb (status =? 201) then
    name ← lift (getitem label "name");
    error "Adding" name status
  else mret tt.

Definition default_labels : list string :=
  ["bug"; "duplicate"; "enhancement"; "help wanted"; "invalid"; "question"; "wontfix"].

(** Lines 143-145: what is sent for a label. *)
Definition sanitize (local : label) : result label :=
  description ← getitem local "description";
  stripped ← remove_markdown_links description;
  let local := <["description" := JStr stripped]> local in
  Ok (if contains "url_exclude_is_open" local then delete "url_exclude_is_open" local else local).

(** Lines 143-150: one turn of the loop over the local labels. *)
Definition adjust_label (common_url token : string) (label : label) : M unit :=
  label ← lift (sanitize label);
  status ← update_label common_url token label;
  if status =? 404 then add_label common_url token label
  else if negb (status =? 200) then
    name ← lift (getitem label "name");
    error "Updating" name status
  else mret tt.

Definition repository_url (organization repository : string) : string :=
  "https://api.github.com/repos/" +:+ organization +:+ "/" +:+ repository +:+ "/labels".

(** Lines 135-137: delete the default GitHub labels. *)
Definition delete_default_labels (common_url token : string) : M unit :=
  for_each default_labels (fun label_name => delete_label common_url token (JStr label_name)).

(** Lines 139-150: update and add labels. *)
Definition update_and_add_labels (common_url token : string) : M unit :=
  labels ← get_labels;
  lint_labels labels;;
  for_each labels (adjust_label common_url token).

Definition adjust_repository_labels (organization repository token : string) : M unit :=
  let common_url := repository_url organization repository in
  delete_default_labels common_url token;;
  update_and_add_labels common_url token.

(** ** The validator's checks, as the specification lists them *)

Inductive check :=
| NamePresent
| DescriptionPresent
| DescriptionShort
| ColorPresent
| ExcludeIsOpenTrue
| W3cTrue.

Definition checks_in_order : list check :=
  [NamePresent; DescriptionPresent; DescriptionShort; ColorPresent; ExcludeIsOpenTrue; W3cTrue].

(** A flag passes when it is absent or equals [True]. *)
Definition flag_true (k : string) (l : label) : bool :=
  match l !! k with
  | Some v => py_eq v (JBool true)
  | None => true
  end.

(** The description is a string of at most 100 characters once its
    Markdown links are stripped. *)
Definition description_short (l : label) : bool :=
  match l !! "description" with
  | Some (JStr d) => len (re_sub_markdown_link d) <=? 100
  | _ => false
  end.

Definition passes (c : check) (l : label) : bool :=
  match c with
  | NamePresent => contains "name" l
  | DescriptionPresent => contains "description" l
  | DescriptionShort => description_short l
  | ColorPresent => contains "color" l
  | ExcludeIsOpenTrue => flag_true "url_exclude_is_open" l
  | W3cTrue => flag_true "w3c" l
  end.

Definition name_text (l : label) : string :=
  match l !! "name" with
  | Some (JStr n) => n
  | _ => ""
  end.

Definition message (c : check) (l : label) : string :=
  match c with
  | NamePresent => "A label needs a name"
  | DescriptionPresent => "A label (" +:+ name_text l +:+ ") needs a description"
  | DescriptionShort =>
      "GitHub will likely complain about the length of your label (" +:+ name_text l
      +:+ ")'s description."
  | ColorPresent => "A label (" +:+ name_text l +:+ ") needs a color"
  | ExcludeIsOpenTrue =>
      "A label (" +:+ name_text l +:+ ")'s url_exclude_is_open needs to be set to true if present."
  | W3cTrue => "A label (" +:+ name_text l +:+ ")'s w3c needs to be set to true if present."
  end.

(** The first check of the list that the record fails. *)
Definition first_failure (l : label) : option check :=
  find (fun c => negb (passes c l)) checks_in_order.

(** What is reported for one record: the message of its first failing
    check, or nothing. *)
Definition violations (l : label) : list string :=
  match first_failure l with
  | Some c => [message c l]
  | None => []
  end.

(** The field types of the data model: [name] and [description], where
    present, are strings. *)
Definition text_field (k : string) (l : label) : bool :=
  match l !! k with
  | Some (JStr _) | None => true
  | Some _ => false
  end.

Definition text_fields (l : label) : Prop :=
  text_field "name" l ∧ text_field "description" l.


(** ** The remote operations, as the specification names them *)

(** [delete(name)] *)
Definition delete_request (common_url token name : string) : request :=
  {| req_method := "DELETE";
     req_url := common_url +:+ "/" +:+ quote_with (is_char "/") name;
     req_token := token;
     req_body := None |}.

(** [update(name, record)] *)
Definition update_request (common_url token name : string) (record : label) : request :=
  {| req_method := "PATCH";
     req_url := common_url +:+ "/" +:+ quote_with (is_char "/") name;
     req_token := token;
     req_body := Some record |}.

(** [create(record)] *)
Definition create_request (common_url token : string) (record : label) : request :=
  {| req_method := "POST"; req_url := common_url; req_token := token; req_body := Some record |}.

(** A reported remote failure names the operation, the record and the
    status. *)
Definition failure (operation name : string) (status : Z) : string :=
  operation +:+ " label: " +:+ name +:+ "; status " +:+ str_of_int status.

(** What a delete reports: nothing for 200 and 404. *)
Definition delete_report (name : string) (status : Z) : list string :=
  if bool_decide (status = 200 ∨ status = 404) then [] else [failure "Deleting" name status].

(** What a create reports: nothing for 201. *)
Definition create_report (name : string) (status : Z) : list string :=
  if bool_decide (status = 201) then [] else [failure "Adding" name status].

(** The reports of deleting [names] one after the other, the log being
    [log] before the first delete; [store] answers the request that ends
    the log. *)
Fixpoint delete_reports (store : list request → Z) (log : list request)
    (common_url token : string) (names : list string) : list string :=
  match names with
  | [] => []
  | name :: names' =>
      let log' := log ++ [delete_request common_url token name] in
      delete_report name (store log') ++ delete_reports store log' common_url token names'
  end.

(** The record sent for a local label whose description is the string
    [d]: links stripped, [url_exclude_is_open] removed. *)
Definition sanitized (local : label) (d : string) : label :=
  delete "url_exclude_is_open" (<["description" := JStr (re_sub_markdown_link d)]> local).

(** Decoding one character of a quoted string; it inverts [quote_char]. *)
Definition hex_value (c : ascii) : N :=
  let n := N_of_ascii c in
  if (n <? 58)%N then (n - 48)%N else (n - 55)%N.

Definition unquote_char (s : string) : option (ascii * string) :=
  match s with
  | EmptyString => None
  | String "%" (String h1 (String h2 rest)) =>
      let b := (16 * hex_value h1 + hex_value h2)%N in
      if (b <? 128)%N then Some (ascii_of_N b, rest)
      else
        match rest with
        | String "%" (String h3 (String h4 rest')) =>
            let b' := (16 * hex_value h3 + hex_value h4)%N in
            Some (ascii_of_N ((b - 192) * 64 + (b' - 128)), rest')
        | _ => None
        end
  | String c rest => Some (c, rest)
  end.

(** From [w] to [w'] the log only grew, by requests that satisfy [ok]. *)
Definition sent_only (ok : request → Prop) (w w' : world) : Prop :=
  ∃ new, requests w' = requests w ++ new ∧ Forall ok new.

Definition updates_or_creates (q : request) : Prop :=
  req_method q = "PATCH" ∨ req_method q = "POST".

(** ** The merge, as the specification states it *)

(** The dict key a value stands for: [True] and [1], [False] and [0] are
    one key. *)
Definition key_of (v : json) : json :=
  match v with
  | JBool b => JInt (if b then 1 else 0)
  | _ => v
  end.

(** The name of a record as a key, if the record has a name. *)
Definition key (l : label) : option json := key_of <$> l !! "name".

Definition has_name (l : label) : Prop := is_Some (l !! "name").

(** Both records have a name, and the names are equal. *)
Definition same_name (a b : label) : bool :=
  match a !! "name", b !! "name" with
  | Some x, Some y => py_eq x y
  | _, _ => false
  end.

(** An upstream record has a name, a description and a colour that is a
    string. *)
Definition upstream_record (u : label) : Prop :=
  has_name u ∧ is_Some (u !! "description") ∧ ∃ c, u !! "color" = Some (JStr c).

Definition field (l : label) (k : string) : json := default JNull (l !! k).

Definition lowered (v : json) : json :=
  match v with
  | JStr s => JStr (str_lower s)
  | _ => v
  end.

(** (1) A local record found upstream: description and lower-cased colour
    from upstream, [w3c] set. *)
Definition merged_record (local upstream : label) : label :=
  <["w3c" := JBool true]>
    (<["color" := lowered (field upstream "color")]>
       (<["description" := field upstream "description"]> local)).

(** (3) The record appended for an upstream record that no local record
    matches. *)
Definition adopted_record (upstream : label) : label :=
  <["name" := field upstream "name"]>
    (<["description" := field upstream "description"]>
       (<["color" := lowered (field upstream "color")]> (<["w3c" := JBool true]> ∅))).

Definition merge_local (U : list label) (l : label) : label :=
  match find (same_name l) U with
  | Some u => merged_record l u
  | None => l
  end.

Definition is_new (L : list label) (u : label) : bool := negb (existsb (same_name u) L).

(** The reference result: the local records in their order, each merged
    with its upstream record if there is one, then the new upstream
    records in the order of the feed. *)
Definition reference (L U : list label) : list label :=
  map (merge_local U) L ++ map adopted_record (List.filter (is_new L) U).

(** Every entry of a name index points at a record of the feed that has
    the entry's key as its name. *)
Definition index_entry_ok (U : list label) (e : json * nat) : Prop :=
  ∃ u n, U !! e.2 = Some u ∧ u !! "name" = Some n ∧ py_eq e.1 n = true.

Definition index_ok (U : list label) (d : index) : Prop := Forall (index_entry_ok U) d.

(** The index [d] lists exactly the records [V] of the feed [U], in
    order, each under its own name. *)
Definition index_of (U : list label) (d : index) (V : list label) : Prop :=
  Forall2 (fun e u => U !! e.2 = Some u ∧ u !! "name" = Some e.1) d V.


(** ** Concrete inputs used by the examples below *)

Definition record (fields : list (string * json)) : label := list_to_map fields.

(** A local record that carries a [w3c] key with the value [false]. *)
Definition local_false_flag : label :=
  record [("name", JStr "a11y"); ("description", JStr "Accessibility"); ("color", JStr "ffaa00");
          ("w3c", JBool false)].

#[global] Instance json_eq_dec : EqDecision json.
Proof. solve_decision. Defined.

(** A local record set: one label written by hand, one adopted earlier. *)
Definition local_security : label :=
  record [("name", JStr "security"); ("description", JStr "[Security](https://x/y) issues");
          ("color", JStr "FF0000"); ("url_exclude_is_open", JBool true)].

Definition local_privacy : label :=
  record [("name", JStr "privacy"); ("description", JStr "old text"); ("color", JStr "aaaaaa");
          ("w3c", JBool true)].

Definition local_set : list label := [local_security; local_privacy].

(** An upstream feed with a known and a new label. *)
Definition upstream_privacy : label :=
  record [("name", JStr "privacy"); ("description", JStr "Privacy review"); ("color", JStr "D4C5F9")].

Definition upstream_i18n : label :=
  record [("name", JStr "i18n"); ("description", JStr "Internationalization"); ("color", JStr "F9C9FF")].

Definition feed : list label := [upstream_privacy; upstream_i18n].

(** A store that knows every label and answers 200. *)
Definition quiet_store : list request → Z := fun _ => 200.

(** A store that answers 404 to the first request and 422 to the second. *)
Definition empty_store : list request → Z := fun log =>
  match length log with
  | 1%nat => 404
  | 2%nat => 422
  | _ => 200
  end.

Definition world_of (ls : list label) (store : list request → Z) : world :=
  {| labels_json := ls; labels_md := ""; stdout := []; requests := []; remote := store |}.

(** A record without a name, and one whose name is a number. *)
Definition nameless : label := record [("color", JStr "000000")].
Definition numbered : label := record [("name", JInt 5)].

(** The records of the end-to-end scenarios. *)
Definition local_a11y : label :=
  record [("name", JStr "a11y"); ("description", JStr "[Accessibility](url) label");
          ("color", JStr "FFAA00"); ("w3c", JBool true)].

Definition adopted_privacy : label :=
  record [("name", JStr "privacy"); ("description", JStr "Privacy review"); ("color", JStr "d4c5f9");
          ("w3c", JBool true)].

Definition adopted_i18n : label :=
  record [("name", JStr "i18n"); ("description", JStr "Internationalization"); ("color", JStr "f9c9ff");
          ("w3c", JBool true)].

(** ** The parts of the link pattern, for the proofs about it *)

(** What follows the group: [\]\(.+\)] *)
Definition link_tail : regex :=
  RCat (RAtom (ALit "]")) (RCat (RAtom (ALit "(")) (RCat (RPlus ADot) (RAtom (ALit ")")))).

Definition matched : @cont (list ascii * list ascii) :=
  fun rest g => Some (default [] g, rest).

Definition dot (c : ascii) : Prop := atom_matches ADot c = true.

(** ** Driver: [main]

    [argparse] has parsed the command line into [args] before the branch
    is taken; a flag is a boolean, an option is absent ([None]) or a
    string.  What [fetch_json] and [find_shortnames] return and the usage
    line of the parser are parameters. *)

Record args := {
  import_w3c : bool;
  update : bool;
  repository : option string;
  all_whatwg_standards : bool;
  token : option string
}.

(** The truth value of an option's value: [None] and the empty string
    are false. *)
Definition truthy (o : option string) : bool :=
  match o with
  | Some (String _ _) => true
  | _ => false
  end.

(** [c in s] for a single character *)
Fixpoint has_char (c : ascii) (s : string) : bool :=
  match s with
  | EmptyString => false
  | String c' s' => bool_decide (c' = c) || has_char c s'
  end.

(** [s.split(sep)] for a single character: the pieces between the
    separators, empty pieces included. *)
Fixpoint split (sep : ascii) (s : string) : list string :=
  match s with
  | EmptyString => [EmptyString]
  | String c s' =>
      if bool_decide (c = sep) then EmptyString :: split sep s'
      else
        match split sep s' with
        | piece :: pieces => String c piece :: pieces
        | [] => [String c EmptyString]
        end
  end.

(** How a run of the script ends when it does not end normally: in one
    of the exceptions above, or in the [ValueError] of unpacking a list
    that has not two elements. *)
Inductive main_exn :=
| Uncaught (e : exn)
| ValueError.

Definition run {A} (m : M A) : world → option main_exn * world := fun w =>
  match m w with
  | (Ok _, w') => (None, w')
  | (Raise e, w') => (Some (Uncaught e), w')
  end.

Definition main (a : args) (w3c_labels : list label) (shortnames : list string) (usage : string)
  : world → option main_exn * world :=
  if import_w3c a then run (import_w3c_labels w3c_labels)
  else if update a then run (labels ← get_labels; update_labels labels)
  else if truthy (repository a) && has_char "/" (default "" (repository a)) && truthy (token a) then
    match split "/" (default "" (repository a)) with
    | [organization; repository] =>
        run (adjust_repository_labels organization repository (default "" (token a)))
    | _ => fun w => (Some ValueError, w)
    end
  else if all_whatwg_standards a && truthy (token a) then
    run (for_each shortnames (fun repository =>
           print ("About to process " +:+ repository);;
           adjust_repository_labels "whatwg" repository (default "" (token a))))
  else run (print usage).

(** ** Properties of the written files *)

(** The name of a record is the string [n]. *)
Definition named (l : label) (n : string) : Prop := l !! "name" = Some (JStr n).

(** A record with a string name and a string description: what
    [update_labels] and the sync loop read. *)
Definition documented (l : label) : Prop :=
  ∃ n d, l !! "name" = Some (JStr n) ∧ l !! "description" = Some (JStr d).

(** The names are strings and the first is not greater than the second. *)
Definition name_le (a b : label) : Prop :=
  ∃ x y, named a x ∧ named b y ∧ String.ltb y x = false.

(** The line of a record in [LABELS.md]. *)
Definition docs_line (l : label) : string :=
  let url := "https://github.com/search?q=org%3Awhatwg+label%3A%22"
             +:+ replace_char " " "+" (quote_with (is_char " ") (name_text l)) +:+ "%22" in
  let url := if contains "url_exclude_is_open" l then url else url +:+ "+is%3Aopen" in
  "* [" +:+ name_text l +:+ "](" +:+ url +:+ "): " +:+ py_str (field l "description") +:+ newline.

Fixpoint docs_lines (labels : list label) : string :=
  match labels with
  | [] => ""
  | l :: rest => docs_line l +:+ docs_lines rest
  end.

(** The text of [LABELS.md] for a record set: the records without the
    [w3c] key, then the records with it. *)
Definition docs_text (labels : list label) : string :=
  docs_header
  +:+ docs_lines (List.filter (fun l => negb (contains "w3c" l)) labels)
  +:+ newline
  +:+ "The following [W3C horizontal labels](https://w3c.github.io/issue-metadata.html#horizontal-reviews) can also be used:"
  +:+ newline +:+ newline
  +:+ docs_lines (List.filter (contains "w3c") labels).

(** ** Properties of the sync loop *)

(** What an update reports: nothing for 200. *)
Definition update_report (name : string) (status : Z) : list string :=
  if bool_decide (status = 200) then [] else [failure "Updating" name status].

Definition description_text (l : label) : string :=
  match l !! "description" with
  | Some (JStr d) => d
  | _ => ""
  end.

(** The requests and the reports of the loop over [labels], the log
    being [log] before the first update: every record is updated, and
    created when the update is answered 404. *)
Fixpoint sync_trace (store : list request → Z) (log : list request)
    (common_url token : string) (labels : list label) : list request * list string :=
  match labels with
  | [] => ([], [])
  | l :: rest =>
      let sent := sanitized l (description_text l) in
      let patch := update_request common_url token (name_text l) sent in
      let post := create_request common_url token sent in
      if store (log ++ [patch]) =? 404 then
        let '(rs, out) := sync_trace store (log ++ [patch; post]) common_url token rest in
        (patch :: post :: rs, create_report (name_text l) (store (log ++ [patch; post])) ++ out)
      else
        let '(rs, out) := sync_trace store (log ++ [patch]) common_url token rest in
        (patch :: rs, update_report (name_text l) (store (log ++ [patch])) ++ out)
  end.

(** A request that carries no [url_exclude_is_open]. *)
Definition no_exclude_flag (q : request) : Prop :=
  ∀ b, req_body q = Some b → b !! "url_exclude_is_open" = None.

(** From [w] to [w'] nothing but the output and the log changed. *)
Definition same_files (w w' : world) : Prop :=
  labels_json w' = labels_json w ∧ labels_md w' = labels_md w ∧ remote w' = remote w.

(** String keys and their order on the pairs of key and record that the
    sort works on. *)
Definition str_key (x : json * label) : Prop := ∃ s, x.1 = JStr s.

Definition key_le (a b : json * label) : Prop :=
  ∃ s t, a.1 = JStr s ∧ b.1 = JStr t ∧ String.ltb t s = false.

Definition tagged (x : json * label) : Prop := x.2 !! "name" = Some x.1.

Definition has_key (n : string) (x : json * label) : bool := bool_decide (x.1 = JStr n).

Definition is_named (n : string) (l : label) : bool := bool_decide (l !! "name" = Some (JStr n)).

(** A record with a name and nothing else. *)
Definition numbered_name : label := record [("name", JStr "7")].

(** ** Properties of the URLs *)

(** Every character of [s] satisfies [p]. *)
Fixpoint all_chars (p : ascii → bool) (s : string) : bool :=
  match s with
  | EmptyString => true
  | String c s' => p c && all_chars p s'
  end.

(** The characters a quoted label name is made of: unreserved
    characters, [/] and the [%] of an escape. *)
Definition path_char (c : ascii) : bool := always_safe c || is_char "/" c || is_char "%" c.

(** The number of occurrences of a character in a string. *)
Fixpoint count_char (c : ascii) (s : string) : nat :=
  match s with
  | EmptyString => 0
  | String c' s' => (if bool_decide (c' = c) then 1 else 0) + count_char c s'
  end.

(** Command lines used in the examples. *)
Definition args_repository (r : string) : args :=
  {| import_w3c := false; update := false; repository := Some r;
     all_whatwg_standards := false; token := Some "token" |}.

(** A record of the feed as the import needs it to write both files: a
    string name, a string description and a string colour. *)
Definition feed_record (u : label) : Prop :=
  documented u ∧ ∃ c, u !! "color" = Some (JStr c).

(** An earlier entry of the feed for the same name. *)
Definition upstream_privacy_old : label :=
  record [("name", JStr "privacy"); ("description", JStr "Privacy"); ("color", JStr "000000")].
(** ** Proofs: worlds and loops *)

Lemma add_stdout_nil w : add_stdout [] w = w.
Proof. destruct w; unfold add_stdout; simpl. by rewrite app_nil_r. Qed.

Lemma add_stdout_app a b w : add_stdout (a ++ b) w = add_stdout b (add_stdout a w).
Proof. unfold add_stdout; simpl. by rewrite app_assoc. Qed.

Lemma add_requests_nil w : add_requests [] w = w.
Proof. destruct w; unfold add_requests; simpl. by rewrite app_nil_r. Qed.

Lemma add_requests_app a b w : add_requests (a ++ b) w = add_requests b (add_requests a w).
Proof. unfold add_requests; simpl. by rewrite app_assoc. Qed.

Lemma for_each_cons {A} (x : A) l body w :
  for_each (x :: l) body w =
  match body x w with
  | (Ok _, w') => for_each l body w'
  | (Raise e, w') => (Raise e, w')
  end.
Proof. reflexivity. Qed.

(** ** Proofs: validator *)

Ltac run_M :=
  cbv [mbind M_bind mret M_ret lift print result_bind result_ret] in *.

Ltac lint_cases l :=
  unfold lint_label, contains, getitem, text_fields, text_field in *; run_M;
  destruct (l !! "name") as [[| | |?]|]; simpl in *; try tauto;
  destruct (l !! "description") as [[| | |?]|]; simpl in *; try tauto;
  try (destruct (_ <? _)); simpl; try tauto;
  destruct (l !! "color") as [?|]; simpl; try tauto;
  destruct (l !! "url_exclude_is_open") as [?|]; simpl; try (destruct (py_ne _ _)); simpl; try tauto;
  destruct (l !! "w3c") as [?|]; simpl; try (destruct (py_ne _ _)); simpl; try tauto.

(** A record either gets through the chain or trips on a value of the
    wrong type; a key is never read before its presence is established. *)
Lemma lint_label_result l w :
  (lint_label l w).1 = Ok tt ∨ (lint_label l w).1 = Raise TypeError.
Proof. lint_cases l. Qed.

(** On a record whose name and description are strings where present,
    one turn of the loop prints the message of the first failing check. *)
Lemma lint_label_spec l w :
  text_fields l → lint_label l w = (Ok tt, add_stdout (violations l) w).
Proof.
  intros Ht.
  unfold lint_label, contains, getitem, text_fields, text_field in *; run_M.
  unfold violations, first_failure, checks_in_order, find, passes, message, name_text,
    description_short, flag_true, py_ne, str_add, remove_markdown_links, contains.
  destruct (l !! "name") as [[| | |?]|]; simpl in *; try tauto;
  destruct (l !! "description") as [[| | |?]|]; simpl in *; try tauto.
  rewrite Z.ltb_antisym.
  destruct (_ <=? _); simpl; [|done].
  destruct (l !! "color") as [?|]; simpl; [|done].
  destruct (l !! "url_exclude_is_open") as [?|]; simpl;
    try (destruct (py_eq _ _)); simpl; try done;
  (destruct (l !! "w3c") as [?|]; simpl; try (destruct (py_eq _ _)); simpl;
   by rewrite ?add_stdout_nil).
Qed.

Lemma lint_labels_spec labels w :
  Forall text_fields labels →
  lint_labels labels w = (Ok tt, add_stdout (flat_map violations labels) w).
Proof.
  unfold lint_labels. intros H. revert w.
  induction H as [|l labels Hl _ IH]; intros w.
  - simpl. by rewrite add_stdout_nil.
  - rewrite for_each_cons, lint_label_spec by done.
    rewrite IH. simpl flat_map. by rewrite add_stdout_app.
Qed.

Lemma lint_labels_result labels w :
  (lint_labels labels w).1 = Ok tt ∨ (lint_labels labels w).1 = Raise TypeError.
Proof.
  unfold lint_labels. revert w.
  induction labels as [|l labels IH]; intros w; [by left|].
  rewrite for_each_cons.
  destruct (lint_label_result l w) as [H|H];
    destruct (lint_label l w) as [[[]|e] w']; simpl in H; try done.
  right. by inversion H.
Qed.

(** ** Theorems: validator *)

(** The first failing check is the earliest check of the list that the
    record fails. *)
Lemma first_failure_spec l c :
  first_failure l = Some c ↔
  ∃ before after, checks_in_order = before ++ c :: after
    ∧ passes c l = false ∧ Forall (fun c' => passes c' l = true) before.
Proof.
  unfold first_failure. generalize checks_in_order. intros cs. split.
  - induction cs as [|c' cs IH]; simpl; [done|].
    destruct (passes c' l) eqn:Hc'; simpl.
    + intros (before & after & -> & ? & ?)%IH.
      exists (c' :: before), after. by repeat split; [|constructor].
    + intros [= ->]. exists [], cs. by repeat split.
  - intros (before & after & -> & Hc & Hbefore).
    induction Hbefore as [|c' before Hc' _ IH]; simpl.
    + by rewrite Hc.
    + by rewrite Hc'.
Qed.

(** C8 (amended). Validator check order: on a record set whose names and
    descriptions, where present, are strings, [lint_labels] raises nothing
    and prints, record after record, the message of the first check that
    the record fails in the order name present, description present,
    stripped description of at most 100 characters, colour present,
    [url_exclude_is_open] equal to [True] if present, [w3c] equal to
    [True] if present: one message for a record that fails a check, none
    for a record that passes all six. *)
Theorem lint_labels_check_order (labels : list label) (w : world) :
  Forall text_fields labels →
  lint_labels labels w = (Ok tt, add_stdout (flat_map violations labels) w)
  ∧ ∀ l, l ∈ labels →
      match find (fun c => negb (passes c l))
              [NamePresent; DescriptionPresent; DescriptionShort; ColorPresent;
               ExcludeIsOpenTrue; W3cTrue] with
      | Some c => violations l = [message c l]
      | None => violations l = []
      end.
Proof.
  intros H. split; [by apply lint_labels_spec|].
  intros l _. unfold violations, first_failure, checks_in_order.
  by destruct (find _ _).
Qed.

Lemma lint_labels_check_order_witness :
  let labels := [nameless; local_security; local_false_flag] in
  let w := world_of labels quiet_store in
  lint_labels labels w =
  (Ok tt,
   add_stdout ["A label needs a name"; "A label (a11y)'s w3c needs to be set to true if present."] w).
Proof.
  refine (proj1 (lint_labels_check_order [nameless; local_security; local_false_flag]
                   (world_of [nameless; local_security; local_false_flag] quiet_store) _)).
  repeat constructor.
Defined.

(** C8 as stated fails: on a record whose name is a number and that has
    no description, building the message of the second check raises
    [TypeError]; nothing is printed for that record, and the record
    behind it, which has no name and would be reported, is not
    validated. *)
Lemma lint_labels_stops_at_number_name :
  contains "name" numbered = true
  ∧ contains "description" numbered = false
  ∧ violations nameless = ["A label needs a name"]
  ∧ lint_labels [numbered; nameless] (world_of [numbered; nameless] quiet_store)
    = (Raise TypeError, world_of [numbered; nameless] quiet_store).
Proof. by vm_compute. Qed.

(** C9 (amended). For every record set whose names and descriptions,
    where present, are strings, [lint_labels] prints for each record what
    [violations] lists; that is one message for every record that lacks
    a name, a description or a colour, and nothing exactly for the
    records that have all three, a description of at most 100 characters
    after link stripping, and [url_exclude_is_open] and [w3c] equal to
    [True] where present. *)
Theorem lint_labels_sound_complete (R : list label) (w : world) :
  Forall text_fields R →
  lint_labels R w = (Ok tt, add_stdout (flat_map violations R) w)
  ∧ ∀ r, r ∈ R →
      (contains "name" r = false ∨ contains "description" r = false ∨ contains "color" r = false →
       ∃ m, violations r = [m])
      ∧ (violations r = [] ↔
         contains "name" r = true ∧ contains "description" r = true ∧ contains "color" r = true
         ∧ description_short r = true
         ∧ flag_true "url_exclude_is_open" r = true ∧ flag_true "w3c" r = true).
Proof.
  intros H. split; [by apply lint_labels_spec|].
  intros r _. unfold violations, first_failure, checks_in_order, find, passes.
  destruct (contains "name" r), (contains "description" r), (description_short r),
    (contains "color" r), (flag_true "url_exclude_is_open" r), (flag_true "w3c" r);
    simpl; split; try (intros [|[|]]; try done); eauto; split; try done;
    intros (? & ? & ? & ? & ? & ?); done.
Qed.

Lemma lint_labels_sound_complete_witness :
  let w := world_of [nameless; local_security] quiet_store in
  lint_labels [nameless; local_security] w
  = (Ok tt, add_stdout (flat_map violations [nameless; local_security]) w)
  ∧ (∃ m, violations nameless = [m])
  ∧ violations local_security = [].
Proof.
  intros w.
  destruct (lint_labels_sound_complete [nameless; local_security] w) as [Hrun Hrec].
  { repeat constructor. }
  split; [exact Hrun|]. split.
  - apply (Hrec nameless); [left|]. by left.
  - apply (Hrec local_security); [right; left|]. by vm_compute.
Defined.

(** C9 as stated fails: a record with a name, a short description and a
    colour is reported when its [w3c] flag is [false]. *)
Lemma lint_labels_reports_false_flag :
  contains "name" local_false_flag = true
  ∧ contains "description" local_false_flag = true
  ∧ contains "color" local_false_flag = true
  ∧ description_short local_false_flag = true
  ∧ lint_labels [local_false_flag] (world_of [] quiet_store)
    = (Ok tt,
       add_stdout ["A label (a11y)'s w3c needs to be set to true if present."]
         (world_of [] quiet_store)).
Proof. by vm_compute. Qed.

(** Either all records have string names and descriptions where present,
    or some record has a name or a description that is not a string. *)
Lemma text_fields_cases (labels : list label) :
  Forall text_fields labels ∨ ∃ l, l ∈ labels ∧ ¬ text_fields l.
Proof.
  induction labels as [|l labels [IH|(l' & Hl' & Hn)]].
  - left. constructor.
  - destruct (text_field "name" l) eqn:Hname.
    + destruct (text_field "description" l) eqn:Hdescription.
      * left. constructor; [|done]. unfold text_fields. by rewrite Hname, Hdescription.
      * right. exists l. split; [constructor|].
        unfold text_fields. rewrite Hdescription. by intros [_ ?].
    + right. exists l. split; [constructor|].
      unfold text_fields. rewrite Hname. by intros [? _].
  - right. exists l'. split; [by constructor|done].
Qed.

(** C10 (amended). [lint_labels] never fails on a missing key: for every
    list of records it never ends in a [KeyError], since each read of a
    field follows the test that the field is present. It is not total:
    it ends normally, or in a [TypeError], and the latter only when some
    record has a name or a description that is present and not a
    string. *)
Theorem lint_labels_no_missing_key (labels : list label) (w : world) :
  (lint_labels labels w).1 ≠ Raise KeyError
  ∧ ((lint_labels labels w).1 = Ok tt
     ∨ ((lint_labels labels w).1 = Raise TypeError
        ∧ ∃ l, l ∈ labels ∧ ¬ text_fields l)).
Proof.
  split.
  - destruct (lint_labels_result labels w) as [H|H]; by rewrite H.
  - destruct (text_fields_cases labels) as [H|H].
    + left. by rewrite lint_labels_spec.
    + destruct (lint_labels_result labels w) as [H'|H']; [by left|by right].
Qed.

(** C10 as stated fails: [lint_labels] is not total on arbitrary record
    lists. A name that is not a string passes the presence test, and the
    message of the second check cannot be built: the run ends in a
    [TypeError]. *)
Lemma lint_labels_number_name :
  contains "name" numbered = true
  ∧ lint_labels [numbered] (world_of [] quiet_store)
    = (Raise TypeError, world_of [] quiet_store).
Proof. by vm_compute. Qed.

(** ** Theorems: Markdown links *)

Example remove_markdown_links_fetch :
  remove_markdown_links (JStr "[fetch](https://x/y) spec") = Ok "fetch spec".
Proof. reflexivity. Qed.

Example remove_markdown_links_two_lines :
  remove_markdown_links (JStr ("[a](b)" +:+ newline +:+ "[c](d)"))
  = Ok ("a" +:+ newline +:+ "c").
Proof. reflexivity. Qed.

(** C7. On a description with two links on one line the substitution
    does not strip both: the greedy group runs to the last [](] of the
    line, so the text between the first and the last link, brackets and
    first URL included, is kept. *)
Theorem remove_markdown_links_two_links :
  remove_markdown_links (JStr "[a](b) [c](d)") = Ok "a](b) [c"
  ∧ remove_markdown_links (JStr "[a](b) [c](d)") ≠ Ok "a c".
Proof. by vm_compute. Qed.

(** *** A single link is stripped *)

Section plus.
Context {X : Type} (a : atom) (g : option (list ascii)) (k : @cont X).

(** A greedy [+] fails when the continuation fails after every run. *)
Lemma match_plus_none s :
  (∀ p s', s = p ++ s' → p ≠ [] → Forall (fun c => atom_matches a c = true) p → k s' g = None) →
  match_plus a s g k = None.
Proof.
  induction s as [|c s IH]; intros H; simpl; [done|].
  destruct (atom_matches a c) eqn:Hc; [|done].
  rewrite IH.
  - apply (H [c] s); [done|done|by repeat constructor].
  - intros p s' -> Hp Hall. apply (H (c :: p) s'); [done|done|by constructor].
Qed.

(** It stops after the longest run the continuation accepts. *)
Lemma match_plus_last p s' x :
  p ≠ [] → Forall (fun c => atom_matches a c = true) p →
  k s' g = Some x →
  (∀ q s'', s' = q ++ s'' → q ≠ [] → Forall (fun c => atom_matches a c = true) q →
            k s'' g = None) →
  match_plus a (p ++ s') g k = Some x.
Proof.
  intros Hp Hall Hk Hlonger. induction Hall as [|c p Hc Hall IH]; [done|].
  simpl. rewrite Hc. destruct p as [|c' p].
  - simpl. by rewrite (match_plus_none s' Hlonger).
  - by rewrite IH.
Qed.
End plus.

Lemma match_close_paren s g x :
  match_plus ADot s g (fun s' g' => match_re (RAtom (ALit ")")) s' g' matched) = Some x →
  ")"%char ∈ s.
Proof.
  intros H. destruct (decide (")"%char ∈ s)) as [|Hno]; [done|].
  rewrite match_plus_none in H; [done|].
  intros p s' -> _ _. simpl. destruct s' as [|c s']; [done|].
  unfold atom_matches. case_bool_decide as Hc; [|done].
  subst. destruct Hno. apply elem_of_app. right. left.
Qed.

Lemma match_link_tail s g x :
  match_re link_tail s g matched = Some x →
  ∃ s', s = "]"%char :: "("%char :: s' ∧ ")"%char ∈ s'.
Proof.
  unfold link_tail. simpl.
  destruct s as [|c1 [|c2 s]]; try done; unfold atom_matches;
    repeat (case_bool_decide; try done).
  subst. intros Hclose%match_close_paren. eauto.
Qed.

Lemma match_at_markdown_link c s :
  match_at markdown_link (c :: s) =
  if bool_decide (c = "["%char)
  then match_plus ADot s None (fun s' _ => match_re link_tail s' (Some (consumed s s')) matched)
  else None.
Proof. reflexivity. Qed.

(** Where no [)] follows, no link starts. *)
Lemma match_at_no_paren s : ")"%char ∉ s → match_at markdown_link s = None.
Proof.
  intros Hno. destruct s as [|c s]; [done|].
  rewrite match_at_markdown_link. case_bool_decide; [|done].
  apply match_plus_none. intros p s' -> _ _.
  destruct (match_re link_tail s' _ matched) eqn:Htail; [|done].
  apply match_link_tail in Htail as (s'' & -> & Hin). destruct Hno.
  right. apply elem_of_app. right. by do 2 right.
Qed.

Lemma sub_group1_no_paren s : ")"%char ∉ s → sub_group1 markdown_link s 0 = s.
Proof.
  induction s as [|c s IH]; intros Hno; [done|].
  cbn [sub_group1]. rewrite match_at_no_paren by done.
  rewrite IH; [done|]. intros Hin. apply Hno. by right.
Qed.

Lemma sub_group1_no_bracket pre s :
  "["%char ∉ pre →
  sub_group1 markdown_link (pre ++ s) 0 = pre ++ sub_group1 markdown_link s 0.
Proof.
  induction pre as [|c pre IH]; intros Hno; [done|].
  change ((c :: pre) ++ s) with (c :: (pre ++ s)).
  cbn [sub_group1]. rewrite match_at_markdown_link.
  rewrite bool_decide_eq_false_2.
  - rewrite IH; [done|]. intros Hin. apply Hno. by right.
  - intros ->. apply Hno. left.
Qed.

Lemma sub_group1_skip r p s : sub_group1 r (p ++ s) (length p) = sub_group1 r s 0.
Proof. induction p as [|c p IH]; [by destruct s|]. simpl. apply IH. Qed.

(** A suffix that starts with a character foreign to the front part lies
    in the back part. *)
Lemma suffix_foreign (c : ascii) (front back q s : list ascii) :
  front ++ back = q ++ c :: s → c ∉ front → ∃ q', back = q' ++ c :: s.
Proof.
  revert q. induction front as [|c' front IH]; intros q H Hno; simpl in *; [eauto|].
  destruct q as [|c'' q]; simpl in H.
  - injection H as -> _. destruct Hno. left.
  - injection H as _ H. apply (IH q H). intros Hin. apply Hno. by right.
Qed.

(** The match at the bracket of a single link: the group is the link
    text and the match ends after the closing parenthesis. *)
Lemma match_at_single_link text target post :
  text ≠ [] → target ≠ [] → Forall dot text → Forall dot target →
  "]"%char ∉ target → ")"%char ∉ post →
  match_at markdown_link ("["%char :: text ++ "]"%char :: "("%char :: target ++ ")"%char :: post)
  = Some (text, post).
Proof.
  intros Htext Htarget Hdt Hdu Hno_bracket Hno_paren.
  rewrite match_at_markdown_link, bool_decide_eq_true_2 by done.
  apply match_plus_last; [done|done| |].
  - unfold consumed. rewrite length_app, Nat.add_sub, take_app_length.
    unfold link_tail. cbn [match_re].
    change (atom_matches (ALit "]") "]") with true.
    change (atom_matches (ALit "(") "(") with true. cbv iota.
    apply (match_plus_last (X := list ascii * list ascii)); [done|done|done|].
    intros q s'' Hq Hne _.
    destruct q as [|c q]; [done|]. injection Hq as <- ->.
    destruct s'' as [|c s'']; [done|]. simpl. unfold atom_matches.
    case_bool_decide; [|done]. subst. destruct Hno_paren.
    apply elem_of_app. right. left.
  - intros q s'' Hq Hne _.
    destruct (match_re link_tail s'' _ matched) eqn:Htail; [|done].
    apply match_link_tail in Htail as (s3 & -> & Hin).
    destruct q as [|c q]; [done|]. injection Hq as <- Hq.
    replace ("("%char :: target ++ ")"%char :: post)
      with (("("%char :: target ++ [")"%char]) ++ post) in Hq
      by (simpl; by rewrite <- app_assoc).
    apply suffix_foreign in Hq as (q' & ->).
    + destruct Hno_paren. apply elem_of_app. right. by do 2 right.
    + intros [Hin'|Hin']%elem_of_cons; [done|].
      apply elem_of_app in Hin' as [Hin'|Hin']; [done|].
      by apply list_elem_of_singleton in Hin'.
Qed.

(** What the substitution does get right: a description with one link
    whose target has no [\]], in front of which there is no [\[] and
    after which there is no [)], loses the link syntax and keeps the
    link text. *)
Lemma single_link_stripped pre text target post :
  text ≠ [] → target ≠ [] → Forall dot text → Forall dot target →
  "["%char ∉ pre → "]"%char ∉ target → ")"%char ∉ post →
  sub_group1 markdown_link
    (pre ++ "["%char :: text ++ "]"%char :: "("%char :: target ++ ")"%char :: post) 0
  = pre ++ text ++ post.
Proof.
  intros Htext Htarget Hdt Hdu Hpre Hno_bracket Hno_paren.
  rewrite sub_group1_no_bracket by done. f_equal.
  cbn [sub_group1]. rewrite match_at_single_link by done. f_equal.
  replace (text ++ "]"%char :: "("%char :: target ++ ")"%char :: post)
    with ((text ++ "]"%char :: "("%char :: target ++ [")"%char]) ++ post)
    by (rewrite <- !app_assoc; simpl; by rewrite <- app_assoc).
  rewrite length_app, Nat.add_sub, sub_group1_skip.
  by apply sub_group1_no_paren.
Qed.

Lemma remove_markdown_links_single_link pre text target post :
  text ≠ [] → target ≠ [] → Forall dot text → Forall dot target →
  "["%char ∉ pre → "]"%char ∉ target → ")"%char ∉ post →
  remove_markdown_links
    (JStr (string_of_list_ascii
             (pre ++ "["%char :: text ++ "]"%char :: "("%char :: target ++ ")"%char :: post)))
  = Ok (string_of_list_ascii (pre ++ text ++ post)).
Proof.
  intros. unfold remove_markdown_links, re_sub_markdown_link.
  rewrite list_ascii_of_string_of_list_ascii. by rewrite single_link_stripped.
Qed.

(** ** Proofs: dict keys *)

Lemma py_eq_key_of a b : py_eq a b = true ↔ key_of a = key_of b.
Proof.
  destruct a as [|[]|x|s], b as [|[]|y|t]; cbn [py_eq as_number key_of];
    rewrite ?Z.eqb_eq, ?bool_decide_eq_true;
    (split; intros H; first [done | congruence | by inversion H]).
Qed.

Lemma py_eq_refl a : py_eq a a = true.
Proof. by apply py_eq_key_of. Qed.

Lemma py_eq_sym a b : py_eq a b = py_eq b a.
Proof.
  destruct (py_eq a b) eqn:H1, (py_eq b a) eqn:H2; try done.
  - apply py_eq_key_of in H1. symmetry in H1. apply py_eq_key_of in H1. congruence.
  - apply py_eq_key_of in H2. symmetry in H2. apply py_eq_key_of in H2. congruence.
Qed.

Lemma py_eq_false a b : py_eq a b = false ↔ key_of a ≠ key_of b.
Proof.
  rewrite <- py_eq_key_of. by destruct (py_eq a b).
Qed.

Lemma same_name_key a b : same_name a b = true ↔ key a = key b ∧ has_name a.
Proof.
  unfold same_name, key, has_name.
  destruct (a !! "name") as [x|], (b !! "name") as [y|]; simpl.
  - rewrite py_eq_key_of. split; [intros ->; eauto|intros [[=] _]; done].
  - split; [done|intros [[=] _]].
  - split; [done|intros [_ []]; done].
  - split; [done|intros [_ []]; done].
Qed.

(** ** Proofs: merger *)

Lemma bind_Ok {A B} (m : result A) (f : A → result B) b :
  m ≫= f = Ok b → ∃ a, m = Ok a ∧ f a = Ok b.
Proof. destruct m as [a|e]; [eauto|done]. Qed.

Lemma getitem_Ok (l : label) k v : getitem l k = Ok v ↔ l !! k = Some v.
Proof. unfold getitem. destruct (l !! k); split; congruence. Qed.

Lemma lower_Ok v c : lower v = Ok c → ∃ s, v = JStr s ∧ c = JStr (str_lower s).
Proof. destruct v; try done. intros [= <-]. eauto. Qed.

Lemma overwrite_Ok l u l' :
  overwrite l u = Ok l' →
  ∃ d c, u !! "description" = Some d ∧ u !! "color" = Some (JStr c) ∧
    l' = <["w3c" := JBool true]> (<["color" := JStr (str_lower c)]> (<["description" := d]> l)).
Proof.
  unfold overwrite. intros H.
  apply bind_Ok in H as (d & Hd%getitem_Ok & H).
  apply bind_Ok in H as (c & Hc%getitem_Ok & H).
  apply bind_Ok in H as (c' & (s & -> & ->)%lower_Ok & H).
  injection H as <-. eauto.
Qed.

Lemma overwrite_spec l u :
  upstream_record u → overwrite l u = Ok (merged_record l u).
Proof.
  intros (_ & [d Hd] & c & Hc). unfold overwrite, merged_record, field, getitem.
  by rewrite Hd, Hc.
Qed.

Lemma overwrite_name l u l' : overwrite l u = Ok l' → l' !! "name" = l !! "name".
Proof.
  intros (d & c & _ & _ & ->)%overwrite_Ok. by rewrite !lookup_insert_ne.
Qed.

Lemma overwrite_idem l u l' : overwrite l u = Ok l' → overwrite l' u = Ok l'.
Proof.
  intros (d & c & Hd & Hc & ->)%overwrite_Ok.
  unfold overwrite, getitem. rewrite Hd, Hc. simpl. f_equal.
  apply map_eq. intros k. rewrite !lookup_insert. by repeat case_decide.
Qed.

Lemma adopted_Ok u a :
  adopted u = Ok a →
  ∃ n d c, u !! "name" = Some n ∧ u !! "description" = Some d ∧ u !! "color" = Some (JStr c) ∧
    a = <["name" := n]> (<["description" := d]>
          (<["color" := JStr (str_lower c)]> (<["w3c" := JBool true]> ∅))).
Proof.
  unfold adopted. intros H.
  apply bind_Ok in H as (n & Hn%getitem_Ok & H).
  apply bind_Ok in H as (d & Hd%getitem_Ok & H).
  apply bind_Ok in H as (c & Hc%getitem_Ok & H).
  apply bind_Ok in H as (c' & (s & -> & ->)%lower_Ok & H).
  injection H as <-. eauto 10.
Qed.

Lemma adopted_spec u : upstream_record u → adopted u = Ok (adopted_record u).
Proof.
  intros ([n Hn] & [d Hd] & c & Hc). unfold adopted, adopted_record, field, getitem.
  by rewrite Hn, Hd, Hc.
Qed.

(** Merging an adopted record with the upstream record it was made from
    changes nothing. *)
Lemma overwrite_adopted u a : adopted u = Ok a → overwrite a u = Ok a.
Proof.
  intros (n & d & c & Hn & Hd & Hc & ->)%adopted_Ok.
  unfold overwrite, getitem. rewrite Hd, Hc.
  cbn [mbind result_bind lower]. f_equal.
  all: apply map_eq; intros k; rewrite !lookup_insert; by repeat case_decide.
Qed.

Lemma update_local_cons_Ok U l L d R :
  update_local U (l :: L) d = Ok R →
  ∃ n, l !! "name" = Some n ∧
    match index_get n d with
    | Some i =>
        ∃ u l' L' d', U !! i = Some u ∧ overwrite l u = Ok l' ∧
          update_local U L (index_del n d) = Ok (L', d') ∧ R = (l' :: L', d')
    | None =>
        contains "w3c" l = false ∧
        ∃ L' d', update_local U L d = Ok (L', d') ∧ R = (l :: L', d')
    end.
Proof.
  simpl. intros H.
  apply bind_Ok in H as (n & Hn%getitem_Ok & H). exists n. split; [done|].
  destruct (index_get n d) as [i|].
  - apply bind_Ok in H as (u & Hu & H).
    unfold list_getitem in Hu. destruct (U !! i) as [u'|] eqn:Hi; [|done].
    injection Hu as ->.
    apply bind_Ok in H as (l' & Hl' & H).
    apply bind_Ok in H as ([L' d'] & HL & H). injection H as <-. eauto 10.
  - destruct (contains "w3c" l); [done|]. split; [done|].
    apply bind_Ok in H as ([L' d'] & HL & H). injection H as <-. eauto.
Qed.

(** A second pass over the records a pass produced, from the same index,
    produces them again. *)
Lemma update_local_idem U L d L' d' :
  update_local U L d = Ok (L', d') → update_local U L' d = Ok (L', d').
Proof.
  revert d L' d'. induction L as [|l L IH]; intros d L' d' H.
  - by injection H as <- <-.
  - apply update_local_cons_Ok in H as (n & Hn & H).
    destruct (index_get n d) as [i|] eqn:Hi.
    + destruct H as (u & l' & L1 & d1 & Hu & Hl' & HL & [= -> ->]).
      simpl. unfold getitem at 1. rewrite (overwrite_name _ _ _ Hl'), Hn. simpl.
      rewrite Hi. unfold list_getitem. rewrite Hu. simpl.
      rewrite (overwrite_idem _ _ _ Hl'). simpl.
      by rewrite (IH _ _ _ HL).
    + destruct H as (Hw & L1 & d1 & HL & [= -> ->]).
      simpl. unfold getitem at 1. rewrite Hn. simpl. rewrite Hi, Hw.
      by rewrite (IH _ _ _ HL).
Qed.

Lemma update_local_app U L1 L2 d L1' d1 L2' d2 :
  update_local U L1 d = Ok (L1', d1) →
  update_local U L2 d1 = Ok (L2', d2) →
  update_local U (L1 ++ L2) d = Ok (L1' ++ L2', d2).
Proof.
  revert d L1' d1. induction L1 as [|l L1 IH]; intros d L1' d1 H1 H2.
  - by injection H1 as <- <-.
  - apply update_local_cons_Ok in H1 as (n & Hn & H1).
    simpl. unfold getitem at 1. rewrite Hn. simpl.
    destruct (index_get n d) as [i|] eqn:Hi.
    + destruct H1 as (u & l' & L' & d' & Hu & Hl' & HL & [= -> ->]).
      unfold list_getitem. rewrite Hu. simpl. rewrite Hl'. simpl.
      by rewrite (IH _ _ _ HL H2).
    + destruct H1 as (Hw & L' & d' & HL & [= -> ->]).
      rewrite Hw. by rewrite (IH _ _ _ HL H2).
Qed.

Lemma index_set_ok U n i d u :
  U !! i = Some u → u !! "name" = Some n → index_ok U d → index_ok U (index_set n i d).
Proof.
  intros Hu Hn. unfold index_ok. induction 1 as [|[k j] d Hk Hd IH]; simpl.
  - repeat constructor. exists u, n. simpl. by rewrite py_eq_refl.
  - destruct (py_eq k n) eqn:Hkn; constructor; try done.
    exists u, n. by simpl.
Qed.

Lemma index_del_ok U k d : index_ok U d → index_ok U (index_del k d).
Proof.
  unfold index_ok. induction 1 as [|[k' j] d Hk Hd IH]; simpl; [constructor|].
  destruct (py_eq k' k); [done|by constructor].
Qed.

Lemma build_index_ok pre rest d d' :
  index_ok (pre ++ rest) d →
  build_index rest (length pre) d = Ok d' →
  index_ok (pre ++ rest) d'.
Proof.
  revert pre d. induction rest as [|u rest IH]; intros pre d Hd H; simpl in H.
  - by injection H as <-.
  - apply bind_Ok in H as (n & Hn%getitem_Ok & H).
    replace (pre ++ u :: rest) with ((pre ++ [u]) ++ rest) in * by by rewrite <- app_assoc.
    apply (IH (pre ++ [u]) (index_set n (length pre) d)).
    + apply (index_set_ok _ _ _ _ u); [|done..].
      rewrite lookup_app_l by (rewrite length_app; simpl; lia).
      by rewrite list_lookup_middle.
    + by rewrite length_app, Nat.add_1_r.
Qed.

Lemma update_local_ok U L d L' d' :
  index_ok U d → update_local U L d = Ok (L', d') → index_ok U d'.
Proof.
  revert d L' d'. induction L as [|l L IH]; intros d L' d' Hd H.
  - by injection H as <- <-.
  - apply update_local_cons_Ok in H as (n & Hn & H).
    destruct (index_get n d) as [i|].
    + destruct H as (u & l' & L1 & d1 & _ & _ & HL & [= -> ->]).
      eapply IH; [|exact HL]. by apply index_del_ok.
    + destruct H as (_ & L1 & d1 & HL & [= -> ->]). by eapply IH.
Qed.

(** The records adopted from an index are left alone by a pass from that
    index, which uses the index up. *)
Lemma adopt_new_fixed U d A :
  index_ok U d → adopt_new U d = Ok A → update_local U A d = Ok (A, []).
Proof.
  unfold index_ok. intros Hd. revert A.
  induction Hd as [|[k i] d Hk Hd IH]; intros A H; simpl in H.
  - by injection H as <-.
  - apply bind_Ok in H as (u & Hu & H).
    unfold list_getitem in Hu. destruct (U !! i) as [u'|] eqn:Hi; [|done].
    injection Hu as ->.
    apply bind_Ok in H as (a & Ha & H).
    apply bind_Ok in H as (A' & HA' & H). injection H as <-.
    destruct Hk as (u' & n & Hi' & Hn & Hkn). simpl in *.
    assert (u' = u) as -> by congruence.
    assert (a !! "name" = Some n) as Han.
    { apply adopted_Ok in Ha as (n' & ? & ? & ? & ? & ? & ->).
      rewrite lookup_insert_eq. congruence. }
    unfold getitem at 1. rewrite Han. simpl. rewrite Hkn.
    unfold list_getitem. rewrite Hi. simpl.
    rewrite (overwrite_adopted _ _ Ha). simpl.
    by rewrite (IH _ HA').
Qed.

Lemma merge_Ok L U M :
  merge L U = Ok M →
  ∃ d L' d' A,
    build_index U 0 [] = Ok d ∧ update_local U L d = Ok (L', d') ∧
    adopt_new U d' = Ok A ∧ M = L' ++ A.
Proof.
  unfold merge. intros H.
  apply bind_Ok in H as (d & Hd & H).
  apply bind_Ok in H as ([L' d'] & HL & H).
  apply bind_Ok in H as (A & HA & H). injection H as <-. eauto 10.
Qed.

Lemma index_get_Some k d i :
  index_get k d = Some i → ∃ k', (k', i) ∈ d ∧ py_eq k' k = true.
Proof.
  induction d as [|[k' j] d IH]; simpl; [done|].
  destruct (py_eq k' k) eqn:Hk.
  - intros [= ->]. exists k'. split; [left|done].
  - intros (k'' & ? & ?)%IH. exists k''. split; [by right|done].
Qed.






Lemma index_ok_nil U : index_ok U [].
Proof. constructor. Qed.


(** ** Theorems: merger *)

(** C3. Merge idempotence: when merging the feed [U] into [L] succeeds
    with [M], merging [U] into [M] succeeds with [M] again; the second
    merge appends nothing. *)
Theorem merge_idempotent (L U M : list label) :
  merge L U = Ok M → merge M U = Ok M.
Proof.
  intros (d & L' & d' & A & Hd & HL & HA & ->)%merge_Ok.
  pose proof (build_index_ok [] U _ _ (index_ok_nil _) Hd) as Hok. simpl in Hok.
  pose proof (update_local_ok _ _ _ _ _ Hok HL) as Hok'.
  pose proof (update_local_app _ _ _ _ _ _ _ _
                (update_local_idem _ _ _ _ _ HL) (adopt_new_fixed _ _ _ Hok' HA)) as H.
  unfold merge. rewrite Hd. simpl. rewrite H. simpl. by rewrite app_nil_r.
Qed.


(** *** The merge of record sets with unique names *)

Lemma same_name_sym a b : same_name a b = same_name b a.
Proof.
  unfold same_name. destruct (a !! "name"), (b !! "name"); try done. apply py_eq_sym.
Qed.

Lemma same_name_false a b :
  has_name a → has_name b → key a ≠ key b → same_name a b = false.
Proof.
  intros Ha Hb Hk. destruct (same_name a b) eqn:H; [|done].
  by apply same_name_key in H as [? _].
Qed.

Lemma index_set_fresh n i d :
  Forall (fun e => py_eq e.1 n = false) d → index_set n i d = d ++ [(n, i)].
Proof.
  induction 1 as [|[k j] d Hk _ IH]; simpl in *; [done|]. by rewrite Hk, IH.
Qed.

Lemma index_of_app U d1 V1 d2 V2 :
  index_of U d1 V1 → index_of U d2 V2 → index_of U (d1 ++ d2) (V1 ++ V2).
Proof. apply Forall2_app. Qed.

Lemma index_of_keys U d V e :
  index_of U d V → e ∈ d → ∃ u, u ∈ V ∧ u !! "name" = Some e.1.
Proof.
  induction 1 as [|e' u d V [_ Hn] _ IH]; intros He; [by apply elem_of_nil in He|].
  apply elem_of_cons in He as [->|He].
  - exists u. split; [left|done].
  - destruct (IH He) as (u' & ? & ?). exists u'. split; [by right|done].
Qed.

Lemma build_index_of pre rest d :
  index_of (pre ++ rest) d pre →
  NoDup (key <$> (pre ++ rest)) →
  Forall has_name rest →
  ∃ d', build_index rest (length pre) d = Ok d' ∧ index_of (pre ++ rest) d' (pre ++ rest).
Proof.
  intros Hd Hnd Hrest. revert pre d Hd Hnd.
  induction Hrest as [|u rest [n Hn] _ IH]; intros pre d Hd Hnd; simpl.
  - rewrite app_nil_r in *. eauto.
  - unfold getitem. rewrite Hn. simpl.
    replace (pre ++ u :: rest) with ((pre ++ [u]) ++ rest) in * by by rewrite <- app_assoc.
    rewrite index_set_fresh.
    + specialize (IH (pre ++ [u]) (d ++ [(n, length pre)])).
      rewrite length_app, Nat.add_1_r in IH. apply IH; [|done].
      apply index_of_app; [done|]. repeat constructor; simpl; [|done].
      rewrite lookup_app_l by (rewrite length_app; simpl; lia).
      by rewrite list_lookup_middle.
    + apply Forall_forall. intros e He.
      destruct (index_of_keys _ _ _ _ Hd He) as (u' & Hu' & Hn').
      apply py_eq_false. intros Hk.
      rewrite fmap_app, fmap_app in Hnd.
      apply NoDup_app in Hnd as [Hnd _]. apply NoDup_app in Hnd as (_ & Hnd & _).
      apply (Hnd (key u')); [by apply list_elem_of_fmap_2|].
      assert (key u' = key u) as -> by (unfold key; rewrite Hn, Hn'; simpl; by f_equal).
      simpl. left.
Qed.

Lemma index_get_of U d V (l : label) n :
  index_of U d V → l !! "name" = Some n →
  match find (same_name l) V with
  | Some u => ∃ i, index_get n d = Some i ∧ U !! i = Some u
  | None => index_get n d = None
  end.
Proof.
  intros Hd Hn. induction Hd as [|[k i] u d V [Hu Hk] _ IH]; simpl in *; [done|].
  assert (same_name l u = py_eq k n) as ->.
  { unfold same_name. rewrite Hn, Hk. apply py_eq_sym. }
  destruct (py_eq k n); [eauto|done].
Qed.

Lemma filter_all {A} (p : A → bool) l : (∀ x, x ∈ l → p x = true) → List.filter p l = l.
Proof.
  induction l as [|x l IH]; intros H; simpl; [done|].
  rewrite (H x) by left. f_equal. apply IH. intros y Hy. apply H. by right.
Qed.

Lemma index_del_of U d V (l : label) n :
  index_of U d V → NoDup (key <$> V) → Forall has_name V → l !! "name" = Some n →
  index_of U (index_del n d) (List.filter (fun u => negb (same_name l u)) V).
Proof.
  intros Hd Hnd HV Hn.
  induction Hd as [|[k i] u d V [Hu Hk] Hd IH]; simpl in *; [constructor|].
  apply NoDup_cons in Hnd as [Hu' Hnd]. apply Forall_cons in HV as [Hhu HV].
  assert (same_name l u = py_eq k n) as Hs.
  { unfold same_name. rewrite Hn, Hk. apply py_eq_sym. }
  rewrite Hs. destruct (py_eq k n) eqn:Hkn; simpl.
  - rewrite filter_all; [done|]. intros u' Hin.
    apply negb_true_iff. rewrite same_name_sym. apply same_name_false.
    + rewrite Forall_forall in HV. by apply HV.
    + by exists n.
    + intros Hkey. apply Hu'.
      assert (key u = key l) as ->.
      { apply same_name_key. rewrite same_name_sym. by rewrite Hs. }
      rewrite <- Hkey. by apply list_elem_of_fmap_2.
  - constructor; [done|]. by apply IH.
Qed.

Lemma adopt_new_of U d V :
  index_of U d V → Forall upstream_record V → adopt_new U d = Ok (map adopted_record V).
Proof.
  induction 1 as [|[k i] u d V [Hu Hk] _ IH]; intros HV; simpl in *; [done|].
  apply Forall_cons in HV as [Hur HV].
  unfold list_getitem. rewrite Hu. simpl. rewrite (adopted_spec _ Hur). simpl.
  by rewrite (IH HV).
Qed.

Lemma find_filter {A} (p q : A → bool) l :
  (∀ x, x ∈ l → p x = true → q x = true) → find p (List.filter q l) = find p l.
Proof.
  induction l as [|x l IH]; intros H; simpl; [done|].
  assert (find p (List.filter q l) = find p l) as IH'.
  { apply IH. intros y Hy. apply H. by right. }
  destruct (q x) eqn:Hq; simpl.
  - by rewrite IH'.
  - destruct (p x) eqn:Hp; [|done]. rewrite (H x) in Hq; [done|left|done].
Qed.

Lemma filter_filter {A} (p q : A → bool) l :
  List.filter p (List.filter q l) = List.filter (fun x => q x && p x) l.
Proof.
  induction l as [|x l IH]; simpl; [done|].
  destruct (q x); simpl; [destruct (p x)|]; by rewrite IH.
Qed.

Lemma NoDup_key_filter p (V : list label) :
  NoDup (key <$> V) → NoDup (key <$> List.filter p V).
Proof.
  induction V as [|u V IH]; simpl; [done|]. intros [Hu Hnd]%NoDup_cons.
  destruct (p u); simpl; [|by apply IH].
  apply NoDup_cons. split; [|by apply IH].
  intros (u' & Hk & Hin)%list_elem_of_fmap. apply Hu. rewrite Hk.
  apply list_elem_of_fmap_2. apply list_elem_of_In in Hin.
  apply filter_In in Hin as [Hin _]. by apply list_elem_of_In.
Qed.

Lemma Forall_filter_list {A} (P : A → Prop) p l : Forall P l → Forall P (List.filter p l).
Proof.
  induction 1 as [|x l Hx _ IH]; simpl; [constructor|].
  destruct (p x); [by constructor|done].
Qed.

(** The pass over the local records, from an index that lists the
    upstream records [V]. *)
Lemma update_local_spec U L :
  Forall has_name L → NoDup (key <$> L) →
  ∀ d V,
    index_of U d V → NoDup (key <$> V) → Forall upstream_record V →
    (∀ l, l ∈ L → contains "w3c" l = true → ∃ u, u ∈ V ∧ same_name l u = true) →
    ∃ d', update_local U L d = Ok (map (merge_local V) L, d')
          ∧ index_of U d' (List.filter (is_new L) V).
Proof.
  intros HL. induction HL as [|l L [n Hn] HL IH]; intros Hnd d V Hd HndV HV Hw.
  { exists d. split; [done|]. simpl. by rewrite filter_all. }
  rewrite fmap_cons in Hnd. apply NoDup_cons in Hnd as [Hl Hnd].
  assert (Forall has_name V) as HVn.
  { eapply Forall_impl; [exact HV|]. by intros u [? _]. }
  assert (∀ l', l' ∈ L → key l' ≠ key l) as Hne.
  { intros l' Hin Hk. apply Hl. rewrite <- Hk. by apply list_elem_of_fmap_2. }
  simpl. unfold getitem at 1. rewrite Hn. simpl.
  pose proof (index_get_of U d V l n Hd Hn) as Hget.
  unfold merge_local at 1.
  destruct (find (same_name l) V) as [u|] eqn:Hfind.
  - destruct Hget as (i & -> & Hu).
    apply find_some in Hfind as [Hin Hsame]. apply list_elem_of_In in Hin.
    unfold list_getitem. rewrite Hu. simpl.
    rewrite overwrite_spec by (rewrite Forall_forall in HV; by apply HV). simpl.
    set (V1 := List.filter (fun u => negb (same_name l u)) V).
    assert (∀ l' x, l' ∈ L → same_name l' x = true → negb (same_name l x) = true) as Hkeep.
    { intros l' x Hl' Hx. apply negb_true_iff.
      destruct (same_name l x) eqn:Hlx; [|done].
      apply same_name_key in Hx as [Hx _]. apply same_name_key in Hlx as [Hlx _].
      destruct (Hne l' Hl'). congruence. }
    destruct (IH Hnd (index_del n d) V1) as (d' & Hpass & Hd').
    + by apply index_del_of.
    + by apply NoDup_key_filter.
    + by apply Forall_filter_list.
    + intros l' Hl' Hw'. destruct (Hw l' ltac:(by right) Hw') as (x & Hx & Hsx).
      exists x. split; [|done]. apply list_elem_of_In, filter_In.
      split; [by apply list_elem_of_In|]. by eapply Hkeep.
    + rewrite Hpass. simpl. exists d'. split.
      * do 3 f_equal. apply map_ext_in. intros l' Hl'%list_elem_of_In.
        unfold merge_local, V1. rewrite find_filter; [done|].
        intros x _ Hx. by eapply Hkeep.
      * unfold V1 in Hd'. rewrite filter_filter in Hd'.
        erewrite filter_ext; [exact Hd'|]. intros x. simpl.
        unfold is_new. simpl. rewrite negb_orb. by rewrite (same_name_sym x l).
  - rewrite Hget.
    assert (∀ x, x ∈ V → same_name l x = false) as Hnone.
    { intros x Hx%list_elem_of_In. by apply (find_none _ _ Hfind). }
    destruct (contains "w3c" l) eqn:Hwl.
    { destruct (Hw l ltac:(by left) Hwl) as (x & Hx & Hsx).
      by rewrite (Hnone x Hx) in Hsx. }
    destruct (IH Hnd d V Hd HndV HV) as (d' & Hpass & Hd').
    { intros l' Hl' Hw'. apply (Hw l'); [by right|done]. }
    rewrite Hpass. simpl. exists d'. split; [done|].
    erewrite filter_ext_in; [exact Hd'|]. intros x Hx%list_elem_of_In. simpl.
    unfold is_new. simpl. by rewrite (same_name_sym x l), (Hnone x Hx).
Qed.

Lemma key_merge_local U l : key (merge_local U l) = key l.
Proof.
  unfold merge_local. destruct (find (same_name l) U); [|done].
  unfold key, merged_record. by rewrite !lookup_insert_ne.
Qed.

Lemma key_adopted_record u : has_name u → key (adopted_record u) = key u.
Proof.
  intros [n Hn]. unfold key, adopted_record, field. by rewrite lookup_insert_eq, Hn.
Qed.

Lemma keys_reference L U :
  Forall has_name U →
  key <$> reference L U = (key <$> L) ++ (key <$> List.filter (is_new L) U).
Proof.
  intros HU. unfold reference. rewrite fmap_app. f_equal.
  - induction L as [|l L IH]; simpl; [done|].
    f_equal; [apply key_merge_local|exact IH].
  - induction HU as [|u U Hu _ IH]; simpl; [done|].
    destruct (is_new L u); simpl; [|exact IH].
    f_equal; [by apply key_adopted_record|exact IH].
Qed.

Lemma NoDup_keys_reference L U :
  Forall has_name U → NoDup (key <$> L) → NoDup (key <$> U) →
  NoDup (key <$> reference L U).
Proof.
  intros HU HL HndU. rewrite keys_reference by done.
  apply NoDup_app. split; [done|]. split; [|by apply NoDup_key_filter].
  intros k (l & -> & Hl)%list_elem_of_fmap (u & Hk & Hu)%list_elem_of_fmap.
  apply list_elem_of_In, filter_In in Hu as [Hu Hnew].
  unfold is_new in Hnew. apply negb_true_iff in Hnew.
  assert (same_name u l = true) as Hs.
  { apply same_name_key. split; [done|].
    rewrite Forall_forall in HU. by apply HU, list_elem_of_In. }
  assert (existsb (same_name u) L = true) as Hex.
  { apply existsb_exists. exists l. split; [by apply list_elem_of_In|done]. }
  congruence.
Qed.

(** C1 (amended). Merge postcondition: let every record of [L] have a
    name and every record of [U] a name, a description and a string
    colour, the names within [L] and within [U] being unique, and let
    every record of [L] that carries a [w3c] key, whatever its value,
    have its name in [U].  Then [merge] returns the reference result: the
    local records in order, those with an upstream record taking its
    description and lower-cased colour and [w3c = true], the others
    unchanged, followed by one adopted record per upstream name that no
    local record has; the result has no duplicate names. *)
Theorem merge_postcondition (L U : list label) :
  Forall has_name L → NoDup (key <$> L) →
  Forall upstream_record U → NoDup (key <$> U) →
  (∀ l, l ∈ L → contains "w3c" l = true → ∃ u, u ∈ U ∧ same_name l u = true) →
  merge L U = Ok (reference L U) ∧ NoDup (key <$> reference L U).
Proof.
  intros HL HndL HU HndU Hw.
  assert (Forall has_name U) as HUn.
  { eapply Forall_impl; [exact HU|]. by intros u [? _]. }
  split; [|by apply NoDup_keys_reference].
  destruct (build_index_of [] U []) as (d & Hd & Hof); try done; [constructor|].
  simpl in Hd, Hof.
  destruct (update_local_spec U L HL HndL d U Hof HndU HU Hw) as (d' & Hpass & Hof').
  unfold merge, reference. rewrite Hd. simpl. rewrite Hpass. simpl.
  rewrite (adopt_new_of U d' _ Hof'); [done|]. by apply Forall_filter_list.
Qed.

(** C1 as stated fails: a record set with unique names whose only record
    carries [w3c: false] meets the stated precondition (no record carries
    [w3c: true]), yet merging the empty feed into it does not return the
    reference result: the assertion fails. *)
Lemma merge_false_flag_aborts :
  NoDup (key <$> [local_false_flag])
  ∧ (∀ l, l ∈ [local_false_flag] → l !! "w3c" = Some (JBool true) →
     ∃ u, u ∈ ([] : list label) ∧ same_name l u = true)
  ∧ merge [local_false_flag] [] = Raise AssertionError
  ∧ merge [local_false_flag] [] ≠ Ok (reference [local_false_flag] []).
Proof.
  split; [apply NoDup_singleton|]. split; [|split; [by vm_compute|by vm_compute]].
  intros l ->%list_elem_of_singleton. by vm_compute.
Qed.

Lemma merge_postcondition_witness :
  merge local_set feed = Ok (reference local_set feed)
  ∧ NoDup (key <$> reference local_set feed).
Proof.
  apply merge_postcondition.
  - repeat constructor; by eexists.
  - compute_done.
  - repeat constructor; by eexists.
  - compute_done.
  - intros l Hl Hw.
    apply elem_of_cons in Hl as [->|Hl]; [by vm_compute in Hw|].
    apply list_elem_of_singleton in Hl as ->.
    exists upstream_privacy. split; [left|by vm_compute].
Defined.

Lemma merge_idempotent_witness :
  merge local_set feed = Ok (reference local_set feed)
  ∧ merge (reference local_set feed) feed = Ok (reference local_set feed).
Proof.
  assert (merge local_set feed = Ok (reference local_set feed)) as H by by vm_compute.
  split; [exact H|]. exact (merge_idempotent _ _ _ H).
Defined.


(** *** End-to-end scenarios *)

Example merge_adopts_new_label : merge [] [upstream_privacy] = Ok [adopted_privacy].
Proof. reflexivity. Qed.

Example merge_withdrawn_label : merge [local_a11y] [] = Raise AssertionError.
Proof. reflexivity. Qed.

(** A successful import does write: the merged set, sorted by name. *)
Example import_w3c_labels_writes :
  let run := import_w3c_labels feed (world_of local_set quiet_store) in
  run.1 = Ok tt
  ∧ labels_json run.2 = [adopted_i18n; adopted_privacy; local_security]
  ∧ stdout run.2 = [].
Proof. by vm_compute. Qed.

(** ** Proofs: sync engine *)

Lemma delete_label_spec common token name w :
  delete_label common token (JStr name) w =
  let w' := add_requests [delete_request common token name] w in
  (Ok tt, add_stdout (delete_report name (remote w' (requests w'))) w').
Proof.
  unfold delete_label, label_name_url, quote, fetch, error, str_add, delete_report; run_M.
  simpl. fold (delete_request common token name).
  set (status := remote w _).
  destruct (Z.eqb_spec status 200) as [->|H200]; simpl.
  { by rewrite add_stdout_nil. }
  destruct (Z.eqb_spec status 404) as [->|H404]; simpl.
  { by rewrite add_stdout_nil. }
  rewrite bool_decide_eq_false_2 by lia. reflexivity.
Qed.

Lemma delete_labels_spec common token names w :
  for_each names (fun label_name => delete_label common token (JStr label_name)) w =
  (Ok tt,
   add_stdout (delete_reports (remote w) (requests w) common token names)
     (add_requests (map (delete_request common token) names) w)).
Proof.
  revert w. induction names as [|name names IH]; intros w.
  - simpl. by rewrite add_requests_nil, add_stdout_nil.
  - rewrite for_each_cons, delete_label_spec. cbv beta iota zeta. rewrite IH.
    f_equal. simpl.
    unfold add_stdout, add_requests. simpl. f_equal; by rewrite <- app_assoc.
Qed.

Lemma sanitize_spec (l : label) d :
  l !! "description" = Some (JStr d) → sanitize l = Ok (sanitized l d).
Proof.
  intros Hd. unfold sanitize, sanitized, getitem, contains. rewrite Hd. simpl.
  case_bool_decide as Hx; [done|].
  rewrite delete_id; [done|]. by apply eq_None_not_Some.
Qed.

Lemma sanitized_name (l : label) d : sanitized l d !! "name" = l !! "name".
Proof. unfold sanitized. by rewrite lookup_delete_ne, lookup_insert_ne. Qed.

(** One turn of the sync loop on a record the store does not know: the
    update, one create, and at most the create's report. *)
Lemma adjust_label_not_found common token (l : label) n d w :
  l !! "name" = Some (JStr n) →
  l !! "description" = Some (JStr d) →
  let patch := update_request common token n (sanitized l d) in
  let post := create_request common token (sanitized l d) in
  remote w (requests w ++ [patch]) = 404 →
  adjust_label common token l w =
  (Ok tt,
   add_stdout (create_report n (remote w (requests w ++ [patch; post])))
     (add_requests [patch; post] w)).
Proof.
  intros Hn Hd patch post H404.
  unfold adjust_label. rewrite (sanitize_spec _ _ Hd).
  unfold update_label, add_label, label_name_url, quote, fetch, error. run_M.
  unfold str_add, getitem. rewrite sanitized_name, Hn. simpl.
  fold (update_request common token n (sanitized l d)). fold patch.
  rewrite H404. simpl.
  fold (create_request common token (sanitized l d)). fold post.
  rewrite <- app_assoc. simpl.
  unfold create_report.
  destruct (Z.eqb_spec (remote w (requests w ++ [patch; post])) 201) as [->|H201]; simpl.
  - rewrite add_stdout_nil. unfold add_requests. simpl. by rewrite <- app_assoc.
  - rewrite bool_decide_eq_false_2 by done.
    unfold add_stdout, add_requests, failure. simpl. by rewrite <- app_assoc.
Qed.

Lemma sent_only_refl ok w w' : requests w' = requests w → sent_only ok w w'.
Proof. intros H. exists []. by rewrite app_nil_r. Qed.

Lemma sent_only_trans ok w1 w2 w3 :
  sent_only ok w1 w2 → sent_only ok w2 w3 → sent_only ok w1 w3.
Proof.
  intros (n1 & E1 & F1) (n2 & E2 & F2). exists (n1 ++ n2). split.
  - by rewrite E2, E1, app_assoc.
  - by apply Forall_app.
Qed.

Lemma lint_label_requests l w : requests (lint_label l w).2 = requests w.
Proof. lint_cases l; reflexivity. Qed.

Lemma for_each_sent_only {A} ok (body : A → M unit) l w :
  (∀ x w, sent_only ok w (body x w).2) → sent_only ok w (for_each l body w).2.
Proof.
  intros Hbody. revert w. induction l as [|x l IH]; intros w.
  - by apply sent_only_refl.
  - rewrite for_each_cons. specialize (Hbody x w).
    destruct (body x w) as [[[]|e] w']; simpl in *; [|done].
    eapply sent_only_trans; [exact Hbody|apply IH].
Qed.

Lemma lint_labels_requests labels w : requests (lint_labels labels w).2 = requests w.
Proof.
  unfold lint_labels. revert w. induction labels as [|l labels IH]; intros w; [done|].
  rewrite for_each_cons. pose proof (lint_label_requests l w) as H.
  destruct (lint_label l w) as [[[]|e] w']; simpl in *; [|done].
  by rewrite IH.
Qed.

Ltac sent_only_done :=
  first
    [ by apply sent_only_refl
    | eexists; split;
      [ simpl; rewrite <- ?app_assoc; reflexivity
      | repeat constructor; unfold updates_or_creates; simpl; tauto ] ].

Lemma adjust_label_sent_only common token l w :
  sent_only updates_or_creates w (adjust_label common token l w).2.
Proof.
  unfold adjust_label, update_label, add_label, label_name_url, quote, fetch, error. run_M.
  destruct (sanitize l) as [l'|e]; [|sent_only_done].
  destruct (getitem l' "name") as [[| | |n]|e]; simpl; try sent_only_done.
  destruct (_ =? 404); simpl.
  - destruct (_ =? 201); simpl; sent_only_done.
  - destruct (_ =? 200); simpl; sent_only_done.
Qed.

Lemma update_and_add_labels_sent_only common token w :
  sent_only updates_or_creates w (update_and_add_labels common token w).2.
Proof.
  unfold update_and_add_labels, get_labels. run_M.
  pose proof (lint_labels_requests (labels_json w) w) as H.
  destruct (lint_labels (labels_json w) w) as [[[]|e] w']; simpl in *.
  - eapply sent_only_trans; [by apply sent_only_refl|].
    apply for_each_sent_only, adjust_label_sent_only.
  - by apply sent_only_refl.
Qed.

(** ** Proofs: quoting is injective *)

Lemma unquote_quote_char c rest :
  unquote_char (quote_char (is_char "/") c +:+ rest) = Some (c, rest).
Proof. destruct c as [[] [] [] [] [] [] [] []]; reflexivity. Qed.

Lemma quote_with_inj a b :
  quote_with (is_char "/") a = quote_with (is_char "/") b → a = b.
Proof.
  revert b. induction a as [|c a IH]; intros [|c' b] H; simpl in H.
  - done.
  - apply (f_equal unquote_char) in H. by rewrite unquote_quote_char in H.
  - apply (f_equal unquote_char) in H. by rewrite unquote_quote_char in H.
  - apply (f_equal unquote_char) in H. rewrite !unquote_quote_char in H.
    inversion H; subst. f_equal. by apply IH.
Qed.

Lemma string_app_inv_head (p a b : string) : p +:+ a = p +:+ b → a = b.
Proof. induction p as [|c p IH]; simpl; intros H; [done|]. inversion H. by apply IH. Qed.

(** ** Theorems: sync engine *)

(** C4. Create-fallback: when the update of a local record (sent
    sanitized, under its name) is answered 404, the turn of the loop for
    that record sends exactly the update and one create, prints exactly
    one "Adding" failure with the record's name and the status unless the
    create is answered 201, and the loop goes on with the next record. *)
Theorem create_fallback common_url token (l : label) (rest : list label) n d w :
  l !! "name" = Some (JStr n) →
  l !! "description" = Some (JStr d) →
  let patch := update_request common_url token n (sanitized l d) in
  let post := create_request common_url token (sanitized l d) in
  remote w (requests w ++ [patch]) = 404 →
  for_each (l :: rest) (adjust_label common_url token) w =
  for_each rest (adjust_label common_url token)
    (add_stdout (create_report n (remote w (requests w ++ [patch; post])))
       (add_requests [patch; post] w)).
Proof.
  intros Hn Hd patch post H404.
  rewrite for_each_cons.
  by rewrite (adjust_label_not_found common_url token l n d w Hn Hd H404).
Qed.

(** The run is the loop over the local labels, started from the world the
    seven deletes leave. *)
Lemma adjust_repository_labels_run organization repository token w :
  let common_url := repository_url organization repository in
  let w1 :=
    add_stdout (delete_reports (remote w) (requests w) common_url token default_labels)
      (add_requests (map (delete_request common_url token) default_labels) w) in
  delete_default_labels common_url token w = (Ok tt, w1)
  ∧ adjust_repository_labels organization repository token w
    = update_and_add_labels common_url token w1.
Proof.
  intros common_url w1.
  assert (delete_default_labels common_url token w = (Ok tt, w1)) as H.
  { unfold delete_default_labels. by rewrite delete_labels_spec. }
  split; [done|].
  unfold adjust_repository_labels. fold common_url.
  change (delete_default_labels common_url token;; update_and_add_labels common_url token)
    with (M_bind _ _ (fun _ => update_and_add_labels common_url token)
            (delete_default_labels common_url token)).
  unfold M_bind. by rewrite H.
Qed.

(** C6. Default-label deletion: a sync run starts with a delete for each
    of the seven default names, in order and whatever the local record
    set holds; a delete answered 200 or 404 reports nothing, any other
    answer is reported as a "Deleting" failure, and in every case the run
    goes on to update and add the local labels, which sends updates and
    creates only. *)
Theorem default_labels_deleted organization repository token w :
  let common_url := repository_url organization repository in
  let w1 :=
    add_stdout (delete_reports (remote w) (requests w) common_url token default_labels)
      (add_requests (map (delete_request common_url token) default_labels) w) in
  default_labels = ["bug"; "duplicate"; "enhancement"; "help wanted"; "invalid"; "question"; "wontfix"]
  ∧ delete_default_labels common_url token w = (Ok tt, w1)
  ∧ adjust_repository_labels organization repository token w
    = update_and_add_labels common_url token w1
  ∧ sent_only updates_or_creates w1
      (adjust_repository_labels organization repository token w).2
  ∧ ∀ name status,
      delete_report name status =
      if bool_decide (status = 200 ∨ status = 404) then []
      else ["Deleting label: " +:+ name +:+ "; status " +:+ str_of_int status].
Proof.
  intros common_url w1.
  destruct (adjust_repository_labels_run organization repository token w) as [Hdel Hrun].
  split; [done|]. split; [exact Hdel|]. split; [exact Hrun|]. split; [|done].
  cbv zeta in Hrun. rewrite Hrun. apply update_and_add_labels_sent_only.
Qed.

(** C5. Sync never deletes: no request sent during a sync run is a DELETE
    addressed to a label name outside the seven default names, whatever
    the local record set and the remote store are. *)
Theorem no_delete_outside_defaults organization repository token w (name : string) q :
  name ∉ default_labels →
  q ∈ drop (length (requests w))
        (requests (adjust_repository_labels organization repository token w).2) →
  ¬ (req_method q = "DELETE"
     ∧ label_name_url (repository_url organization repository) (JStr name) = Ok (req_url q)).
Proof.
  intros Hname Hq [Hm Hu].
  destruct (adjust_repository_labels_run organization repository token w) as [_ Hrun].
  cbv zeta in Hrun. rewrite Hrun in Hq. clear Hrun.
  set (common_url := repository_url organization repository) in *.
  set (w1 := add_stdout _ _) in Hq.
  destruct (update_and_add_labels_sent_only common_url token w1) as (new & E & Hnew).
  change (requests w1)
    with (requests w ++ map (delete_request common_url token) default_labels) in E.
  rewrite E, <- app_assoc, drop_app_length in Hq.
  apply elem_of_app in Hq as [Hq|Hq].
  - apply list_elem_of_In, in_map_iff in Hq as (d & <- & Hd).
    apply list_elem_of_In in Hd.
    unfold label_name_url, quote in Hu. simpl in Hu.
    injection Hu as Hu.
    apply string_app_inv_head in Hu. simpl in Hu. injection Hu as Hu.
    apply quote_with_inj in Hu. by subst.
  - rewrite Forall_forall in Hnew. destruct (Hnew q Hq) as [H|H]; by rewrite H in Hm.
Qed.

(** *** Concrete runs *)

Lemma create_fallback_witness :
  let w := world_of local_set empty_store in
  let common_url := repository_url "whatwg" "fetch" in
  let sent := sanitized local_security "[Security](https://x/y) issues" in
  for_each (local_security :: [local_privacy]) (adjust_label common_url "token") w =
  for_each [local_privacy] (adjust_label common_url "token")
    (add_stdout ["Adding label: security; status 422"]
       (add_requests
          [update_request common_url "token" "security" sent;
           create_request common_url "token" sent] w)).
Proof.
  exact (create_fallback (repository_url "whatwg" "fetch") "token" local_security
           [local_privacy] "security" "[Security](https://x/y) issues"
           (world_of local_set empty_store) eq_refl eq_refl eq_refl).
Defined.

Lemma no_delete_outside_defaults_witness :
  let w := world_of local_set quiet_store in
  let q := delete_request (repository_url "whatwg" "fetch") "token" "bug" in
  ("security" ∉ default_labels)
  ∧ q ∈ drop (length (requests w)) (requests (adjust_repository_labels "whatwg" "fetch" "token" w).2)
  ∧ ¬ (req_method q = "DELETE"
       ∧ label_name_url (repository_url "whatwg" "fetch") (JStr "security") = Ok (req_url q)).
Proof.
  intros w q.
  assert ("security" ∉ default_labels) as Hname by compute_done.
  assert (q ∈ drop (length (requests w))
            (requests (adjust_repository_labels "whatwg" "fetch" "token" w).2)) as Hq.
  { vm_compute. left. }
  split; [exact Hname|]. split; [exact Hq|].
  exact (no_delete_outside_defaults "whatwg" "fetch" "token" w "security" q Hname Hq).
Defined.

(** ** Proofs: the order of names *)

Lemma ltb_Lt a b : String.ltb a b = true ↔ String.compare a b = Lt.
Proof. unfold String.ltb. destruct (String.compare a b); split; congruence. Qed.

Lemma ltb_irrefl a : String.ltb a a = false.
Proof.
  destruct (String.ltb a a) eqn:H; [|done]. apply ltb_Lt in H.
  assert (String.compare a a = Eq) as E by by apply OrderedTypeEx.String_as_OT.cmp_eq.
  congruence.
Qed.

Lemma ltb_trans a b c :
  String.ltb a b = true → String.ltb b c = true → String.ltb a c = true.
Proof.
  rewrite !ltb_Lt. intros H1 H2.
  apply OrderedTypeEx.String_as_OT.cmp_lt.
  apply OrderedTypeEx.String_as_OT.cmp_lt in H1, H2.
  by eapply OrderedTypeEx.String_as_OT.lt_trans.
Qed.

Lemma ltb_asym a b : String.ltb a b = true → String.ltb b a = false.
Proof.
  intros H. destruct (String.ltb b a) eqn:H'; [|done].
  pose proof (ltb_trans _ _ _ H H') as Haa. by rewrite ltb_irrefl in Haa.
Qed.

Lemma ltb_total a b : String.ltb a b = false → String.ltb b a = false → a = b.
Proof.
  intros H1 H2. apply String.compare_eq_iff.
  destruct (String.compare a b) eqn:E; [done| |].
  - apply ltb_Lt in E. congruence.
  - rewrite String.compare_antisym in E.
    destruct (String.compare b a) eqn:E'; simpl in E; try done.
    apply ltb_Lt in E'. congruence.
Qed.

(** [a <= b] and [b < c] give [a < c] or, here, what the sort needs:
    not being greater is transitive. *)
Lemma not_gt_trans a b c :
  String.ltb b a = false → String.ltb c b = false → String.ltb c a = false.
Proof.
  intros H1 H2. destruct (String.ltb c a) eqn:H; [|done].
  destruct (String.ltb a b) eqn:Hab.
  - by rewrite (ltb_trans _ _ _ H Hab) in H2.
  - assert (a = b) as -> by by apply ltb_total. congruence.
Qed.

(** ** Proofs: [sort_by_name] *)

Import Permutation Sorted.

Lemma key_le_lt_trans x y z :
  str_key x → py_lt x.1 y.1 = Ok true → key_le y z → key_le x z.
Proof.
  intros [s Hs] Hlt (t & u & Ht & Hu & Hle). rewrite Hs, Ht in Hlt. simpl in Hlt.
  injection Hlt as Hlt. exists s, u. repeat split; try done.
  destruct (String.ltb u s) eqn:H; [|done].
  by rewrite (ltb_trans _ _ _ H Hlt) in Hle.
Qed.

Lemma insert_by_key_spec x l :
  str_key x → Forall str_key l →
  ∃ l', insert_by_key x l = Ok l' ∧ l' ≡ₚ x :: l
        ∧ (StronglySorted key_le l → StronglySorted key_le l').
Proof.
  intros Hx Hl. induction Hl as [|y l Hy Hl IH]; simpl.
  { exists [x]. split; [done|]. split; [done|]. intros _. repeat constructor. }
  destruct Hx as [s Hs], Hy as [t Ht]. rewrite Hs, Ht. simpl.
  destruct (String.ltb s t) eqn:Hlt; simpl.
  - exists (x :: y :: l). split; [done|]. split; [done|]. intros Hsorted.
    constructor; [done|].
    assert (key_le x y) as Hxy.
    { exists s, t. repeat split; try done. by apply ltb_asym. }
    constructor; [done|].
    apply StronglySorted_inv in Hsorted as [_ Hall].
    eapply Forall_impl; [exact Hall|]. intros z Hz.
    apply (key_le_lt_trans x y z); [by exists s| |done].
    rewrite Hs, Ht. simpl. by rewrite Hlt.
  - destruct IH as (l' & -> & Hperm & Hsorted'). simpl.
    exists (y :: l'). split; [done|]. split.
    + rewrite Hperm. apply perm_swap.
    + intros Hsorted. apply StronglySorted_inv in Hsorted as [Hsl Hall].
      constructor; [by apply Hsorted'|].
      rewrite Hperm. constructor; [|done].
      exists t, s. by repeat split.
Qed.

Lemma filter_none {A} (p : A → bool) l :
  Forall (fun x => p x = false) l → List.filter p l = [].
Proof. induction 1 as [|x l Hx _ IH]; simpl; [done|]. by rewrite Hx. Qed.

Lemma insert_by_key_filter n x l l' :
  str_key x → StronglySorted key_le l → insert_by_key x l = Ok l' →
  List.filter (has_key n) l' = List.filter (has_key n) l ++ List.filter (has_key n) [x].
Proof.
  intros [s Hs] Hsorted. revert l'.
  induction Hsorted as [|y l Hsl IH Hall]; intros l' H; simpl in H.
  { by injection H as <-. }
  apply bind_Ok in H as (b & Hlt & H). destruct b.
  - injection H as <-.
    assert (List.filter (has_key n) (y :: l) = [] ∨ has_key n x = false) as [E|E].
    { destruct (has_key n x) eqn:Hxn; [left|by right].
      unfold has_key in Hxn. apply bool_decide_eq_true in Hxn.
      apply filter_none. constructor.
      - unfold has_key. apply bool_decide_eq_false_2. intros Hy.
        rewrite Hxn, Hy in Hlt. simpl in Hlt. injection Hlt as Hlt.
        by rewrite ltb_irrefl in Hlt.
      - eapply Forall_impl; [exact Hall|]. intros z (t & u & Ht & Hu & Hle).
        unfold has_key. apply bool_decide_eq_false_2. intros Hz.
        rewrite Hxn, Ht in Hlt. simpl in Hlt. injection Hlt as Hlt.
        rewrite Hz in Hu. injection Hu as <-.
        by rewrite Hlt in Hle. }
    + cbn [List.filter] in *. rewrite E. by destruct (has_key n x).
    + cbn [List.filter] in *. rewrite E. by rewrite app_nil_r.
  - apply bind_Ok in H as (l'' & Hl'' & H). injection H as <-.
    cbn [List.filter]. rewrite (IH _ Hl''). cbn [List.filter].
    by destruct (has_key n y).
Qed.

Lemma sort_keyed_spec todo :
  Forall str_key todo →
  ∀ acc, Forall str_key acc → StronglySorted key_le acc →
  ∃ r, sort_keyed todo acc = Ok r ∧ r ≡ₚ acc ++ todo ∧ StronglySorted key_le r
       ∧ ∀ n, List.filter (has_key n) r
              = List.filter (has_key n) acc ++ List.filter (has_key n) todo.
Proof.
  induction 1 as [|x todo Hx Htodo IH]; intros acc Hacc Hsorted; simpl.
  { exists acc. rewrite app_nil_r. split; [done|]. split; [done|]. split; [done|].
    intros n. by rewrite app_nil_r. }
  destruct (insert_by_key_spec x acc Hx Hacc) as (acc' & Hins & Hperm & Hsorted').
  rewrite Hins. simpl.
  destruct (IH acc') as (r & -> & Hr & Hrs & Hfilter).
  { rewrite Hperm. by constructor. }
  { by apply Hsorted'. }
  exists r. split; [done|]. split; [|split; [done|]].
  - rewrite Hr, Hperm. by rewrite <- Permutation_middle.
  - intros n. rewrite Hfilter, (insert_by_key_filter n x acc acc' Hx Hsorted Hins).
    cbn [List.filter]. rewrite <- app_assoc. f_equal. by destruct (has_key n x).
Qed.

Lemma keyed_spec labels :
  Forall (fun l => ∃ n, named l n) labels →
  ∃ ks, keyed labels = Ok ks ∧ ks.*2 = labels ∧ Forall str_key ks ∧ Forall tagged ks.
Proof.
  induction 1 as [|l labels [n Hn] _ (ks & Hks & E & Hstr & Htag)]; simpl.
  { exists []. split; [done|]. split; [done|]. split; constructor. }
  unfold getitem. rewrite Hn. simpl. rewrite Hks. simpl.
  exists ((JStr n, l) :: ks). split; [done|]. split; [|split].
  - rewrite fmap_cons. by rewrite E.
  - constructor; [by exists n|done].
  - by constructor.
Qed.

Lemma tagged_name_le x y : tagged x → tagged y → key_le x y → name_le x.2 y.2.
Proof.
  unfold tagged, name_le, named. intros Hx Hy (s & t & Hs & Ht & Hle).
  exists s, t. rewrite Hx, Hy, Hs, Ht. by repeat split.
Qed.

Lemma tagged_sorted r :
  Forall tagged r → StronglySorted key_le r → StronglySorted name_le (r.*2).
Proof.
  intros Htag Hs. induction Hs as [|x r Hs IH Hall]; simpl; [constructor|].
  apply Forall_cons in Htag as [Hx Htag]. constructor; [by apply IH|].
  apply Forall_fmap. rewrite Forall_forall in Hall, Htag |- *.
  intros y Hy. apply tagged_name_le; auto.
Qed.

Lemma tagged_filter n r :
  Forall tagged r → List.filter (is_named n) (r.*2) = (List.filter (has_key n) r).*2.
Proof.
  induction 1 as [|x r Hx _ IH]; [done|].
  rewrite fmap_cons. cbn [List.filter].
  assert (is_named n x.2 = has_key n x) as ->.
  { unfold is_named, has_key, tagged in *. rewrite Hx.
    apply bool_decide_ext. split; congruence. }
  destruct (has_key n x); [rewrite fmap_cons|]; by rewrite IH.
Qed.

Lemma sort_by_name_spec labels :
  Forall (fun l => ∃ n, named l n) labels →
  ∃ sorted, sort_by_name labels = Ok sorted ∧ sorted ≡ₚ labels
            ∧ StronglySorted name_le sorted
            ∧ ∀ n, List.filter (is_named n) sorted = List.filter (is_named n) labels.
Proof.
  intros H. destruct (keyed_spec labels H) as (ks & Hks & E & Hstr & Htag).
  destruct (sort_keyed_spec ks Hstr []) as (r & Hr & Hperm & Hsorted & Hfilter);
    [constructor..|].
  simpl in Hperm. unfold sort_by_name. rewrite Hks. simpl. rewrite Hr. simpl.
  assert (Forall tagged r) as Htag' by by rewrite Hperm.
  exists (r.*2). split; [done|]. split; [|split].
  - by rewrite Hperm, E.
  - by apply tagged_sorted.
  - intros n. rewrite tagged_filter by done. rewrite Hfilter. simpl.
    rewrite <- tagged_filter by done. by rewrite E.
Qed.

Lemma insert_by_key_last x acc :
  str_key x → Forall (fun y => key_le y x) acc → insert_by_key x acc = Ok (acc ++ [x]).
Proof.
  intros [s Hs]. induction 1 as [|y acc (t & s' & Ht & Hs' & Hle) _ IH]; simpl; [done|].
  rewrite Hs, Ht. simpl. rewrite Hs in Hs'. injection Hs' as <-.
  rewrite Hle. by rewrite IH.
Qed.

Lemma sort_keyed_sorted todo acc :
  Forall str_key todo → StronglySorted key_le (acc ++ todo) →
  sort_keyed todo acc = Ok (acc ++ todo).
Proof.
  intros Htodo. revert acc. induction Htodo as [|x todo Hx _ IH]; intros acc Hs; simpl.
  { by rewrite app_nil_r. }
  rewrite insert_by_key_last; [simpl|done|].
  - rewrite IH; rewrite <- app_assoc; [done|exact Hs].
  - clear IH. induction acc as [|y acc IH]; [constructor|].
    simpl in Hs. apply StronglySorted_inv in Hs as [Hs Hall].
    constructor; [|by apply IH].
    rewrite Forall_forall in Hall. apply Hall. apply elem_of_app. right. left.
Qed.

(** Sorting a sorted record set returns it. *)
Lemma sort_by_name_sorted_id labels :
  Forall (fun l => ∃ n, named l n) labels → StronglySorted name_le labels →
  sort_by_name labels = Ok labels.
Proof.
  intros H Hs. destruct (keyed_spec labels H) as (ks & Hks & E & Hstr & Htag).
  unfold sort_by_name. rewrite Hks. simpl.
  rewrite sort_keyed_sorted; [simpl; by rewrite E|done|]. simpl.
  subst labels. clear Hks H.
  induction ks as [|x ks IH]; [constructor|].
  rewrite fmap_cons in Hs. apply StronglySorted_inv in Hs as [Hs Hall].
  apply Forall_cons in Hstr as [Hx Hstr]. apply Forall_cons in Htag as [Htx Htag].
  constructor; [by apply IH|].
  rewrite Forall_fmap in Hall. rewrite Forall_forall in Hall, Htag |- *.
  intros y Hy. destruct (Hall y Hy) as (s & t & Hs' & Ht' & Hle). simpl in *.
  unfold named, tagged in *. exists s, t.
  rewrite Htx in Hs'. rewrite (Htag y Hy) in Ht'.
  split; [congruence|]. split; [congruence|done].
Qed.

Lemma keyed_missing_name labels l :
  l ∈ labels → l !! "name" = None → keyed labels = Raise KeyError.
Proof.
  intros Hl Hn. induction labels as [|l' labels IH]; [by apply elem_of_nil in Hl|].
  simpl. unfold getitem. apply elem_of_cons in Hl as [<-|Hl].
  - by rewrite Hn.
  - destruct (l' !! "name"); [|done]. simpl. by rewrite IH.
Qed.

(** ** Proofs: [update_labels] and [create_labels_docs] *)

Lemma str_app_assoc (a b c : string) : (a +:+ b) +:+ c = a +:+ (b +:+ c).
Proof.
  induction a as [|x a IH]; [done|].
  change (String x ((a +:+ b) +:+ c) = String x (a +:+ (b +:+ c))). by rewrite IH.
Qed.

Lemma str_app_nil_r (a : string) : a +:+ "" = a.
Proof.
  induction a as [|x a IH]; [done|].
  change (String x (a +:+ "") = String x a). by rewrite IH.
Qed.

Lemma documented_text_fields l : documented l → text_fields l.
Proof.
  intros (n & d & Hn & Hd). unfold text_fields, text_field. by rewrite Hn, Hd.
Qed.

Lemma documented_named l : documented l → ∃ n, named l n.
Proof. intros (n & d & Hn & _). by exists n. Qed.

Lemma format_label_spec l : documented l → format_label l = Ok (docs_line l).
Proof.
  intros (n & d & Hn & Hd).
  unfold format_label, docs_line, getitem, quote_plus, name_text, field.
  rewrite Hn, Hd. simpl. by destruct (contains "url_exclude_is_open" l).
Qed.

Lemma format_labels_spec want labels output :
  Forall documented labels →
  format_labels want labels output =
  Ok (output +:+ docs_lines (List.filter (fun l => bool_decide (contains "w3c" l = want)) labels)).
Proof.
  intros H. revert output. induction H as [|l labels Hl _ IH]; intros output; simpl.
  { by rewrite str_app_nil_r. }
  case_bool_decide; [|apply IH].
  rewrite format_label_spec by done. simpl. rewrite IH. simpl. by rewrite str_app_assoc.
Qed.

Lemma create_labels_docs_spec labels w :
  Forall documented labels →
  create_labels_docs labels w = (Ok tt, set_labels_md (docs_text labels) w).
Proof.
  intros H. unfold create_labels_docs. run_M.
  rewrite !format_labels_spec by done. unfold write_labels_md, docs_text.
  assert (List.filter (fun l : label => bool_decide (contains "w3c" l = false)) labels
          = List.filter (fun l : label => negb (contains "w3c" l)) labels) as ->.
  { apply filter_ext. intros l. by destruct (contains "w3c" l). }
  assert (List.filter (fun l : label => bool_decide (contains "w3c" l = true)) labels
          = List.filter (contains "w3c") labels) as ->.
  { apply filter_ext. intros l. by destruct (contains "w3c" l). }
  by rewrite !str_app_assoc.
Qed.

Lemma update_labels_spec labels w :
  Forall documented labels →
  ∃ sorted,
    sort_by_name labels = Ok sorted
    ∧ update_labels labels w =
      (Ok tt,
       set_labels_md (docs_text sorted)
         (set_labels_json sorted (add_stdout (flat_map violations labels) w))).
Proof.
  intros H.
  destruct (sort_by_name_spec labels) as (sorted & Hsort & Hperm & _).
  { eapply Forall_impl; [exact H|]. apply documented_named. }
  exists sorted. split; [done|].
  unfold update_labels. run_M.
  rewrite lint_labels_spec.
  2:{ eapply Forall_impl; [exact H|]. apply documented_text_fields. }
  rewrite Hsort. unfold write_labels_json.
  rewrite create_labels_docs_spec; [done|]. by rewrite Hperm.
Qed.

Lemma sort_by_name_missing_name labels l :
  l ∈ labels → l !! "name" = None → sort_by_name labels = Raise KeyError.
Proof. intros Hl Hn. unfold sort_by_name. by rewrite (keyed_missing_name labels l). Qed.







(** ** Theorems: writing the record set *)

(** X1. [labels.sort(key=...)] on records whose names are strings: the
    sort succeeds, and its result is a permutation of the input, in
    ascending order of the names, with the records of one name in the
    order they had (the sort is stable). *)
Theorem sort_by_name_stable_sort (labels : list label) :
  Forall (fun l => ∃ n, named l n) labels →
  ∃ sorted,
    sort_by_name labels = Ok sorted
    ∧ sorted ≡ₚ labels
    ∧ StronglySorted name_le sorted
    ∧ ∀ n, List.filter (is_named n) sorted = List.filter (is_named n) labels.
Proof. apply sort_by_name_spec. Qed.

Lemma sort_by_name_stable_sort_witness :
  ∃ sorted,
    sort_by_name [local_security; local_privacy; local_a11y] = Ok sorted
    ∧ sorted ≡ₚ [local_security; local_privacy; local_a11y]
    ∧ StronglySorted name_le sorted
    ∧ ∀ n, List.filter (is_named n) sorted
           = List.filter (is_named n) [local_security; local_privacy; local_a11y].
Proof.
  apply sort_by_name_stable_sort.
  repeat constructor; eexists; reflexivity.
Defined.

(** X2. [update_labels] on records that all have a string name and a
    string description: it ends normally, [labels.json] holds the records
    sorted by name, and [LABELS.md] lists every record once, those
    without a [w3c] key before those with one, each group in name
    order; the output is what [lint_labels] reports. *)
Theorem update_labels_writes (labels : list label) (w : world) :
  Forall documented labels →
  ∃ sorted,
    sorted ≡ₚ labels ∧ StronglySorted name_le sorted
    ∧ update_labels labels w =
      (Ok tt,
       set_labels_md (docs_text sorted)
         (set_labels_json sorted (add_stdout (flat_map violations labels) w))).
Proof.
  intros H. destruct (update_labels_spec labels w H) as (sorted & Hsort & Hrun).
  destruct (sort_by_name_spec labels) as (sorted' & Hsort' & Hperm & Hsorted & _).
  { eapply Forall_impl; [exact H|]. apply documented_named. }
  assert (sorted' = sorted) as -> by congruence.
  by exists sorted.
Qed.

Lemma update_labels_writes_witness :
  ∃ sorted,
    sorted ≡ₚ local_set ∧ StronglySorted name_le sorted
    ∧ update_labels local_set (world_of [] quiet_store) =
      (Ok tt,
       set_labels_md (docs_text sorted)
         (set_labels_json sorted
            (add_stdout (flat_map violations local_set) (world_of [] quiet_store)))).
Proof.
  apply update_labels_writes.
  repeat constructor; eexists _, _; split; reflexivity.
Defined.



(** X4. A record without a name stops [update_labels] before anything
    is written: after the validator's report the sort raises [KeyError],
    and [labels.json] and [LABELS.md] are as before. *)
Theorem update_labels_missing_name (labels : list label) (l : label) (w : world) :
  Forall text_fields labels → l ∈ labels → l !! "name" = None →
  update_labels labels w = (Raise KeyError, add_stdout (flat_map violations labels) w).
Proof.
  intros Ht Hl Hn. unfold update_labels. run_M.
  rewrite lint_labels_spec by done. by rewrite (sort_by_name_missing_name labels l).
Qed.

Lemma update_labels_missing_name_witness :
  update_labels [local_security; nameless] (world_of [] quiet_store)
  = (Raise KeyError, add_stdout ["A label needs a name"] (world_of [] quiet_store)).
Proof.
  apply (update_labels_missing_name [local_security; nameless] nameless).
  - repeat constructor.
  - right. left.
  - reflexivity.
Defined.



(** ** Proofs: what the substitution keeps *)

Lemma match_plus_some {X} a s g (k : @cont X) x :
  match_plus a s g k = Some x → ∃ p s', s = p ++ s' ∧ p ≠ [] ∧ k s' g = Some x.
Proof.
  induction s as [|c s IH]; simpl; [done|].
  destruct (atom_matches a c); [|done].
  destruct (match_plus a s g k) as [y|] eqn:E.
  - intros [= ->]. destruct (IH eq_refl) as (p & s' & -> & _ & Hk).
    exists (c :: p), s'. by repeat split.
  - intros Hk. exists [c], s. by repeat split.
Qed.

Lemma match_link_tail_rest s g t rest :
  match_re link_tail s g matched = Some (t, rest) →
  t = default [] g ∧ ∃ q, s = q ++ rest ∧ q ≠ [].
Proof.
  unfold link_tail. simpl.
  destruct s as [|c1 [|c2 s]]; try done; unfold atom_matches;
    repeat (case_bool_decide; try done).
  intros (p & s' & -> & _ & Hk)%match_plus_some.
  destruct s' as [|c s']; [done|]. simpl in Hk. unfold atom_matches in Hk.
  case_bool_decide; [|done]. injection Hk as <- <-.
  split; [done|]. exists (c1 :: c2 :: p ++ [c]). split; [|done].
  simpl. by rewrite <- app_assoc.
Qed.

(** A match takes its group out of the text it passes over. *)
Lemma match_at_markdown_link_length s t rest :
  match_at markdown_link s = Some (t, rest) →
  (length t + length rest < length s)%nat.
Proof.
  destruct s as [|c s]; [done|]. rewrite match_at_markdown_link.
  case_bool_decide; [|done].
  intros (p & s' & -> & _ & Hk)%match_plus_some.
  apply match_link_tail_rest in Hk as (-> & q & -> & Hq).
  simpl. unfold consumed. rewrite length_take, !length_app. lia.
Qed.

Lemma sub_group1_length s skip :
  (length (sub_group1 markdown_link s skip) ≤ length s - skip)%nat.
Proof.
  revert skip. induction s as [|c s IH]; intros skip; [simpl; lia|].
  cbn [sub_group1]. destruct skip as [|skip].
  - destruct (match_at markdown_link (c :: s)) as [[t rest]|] eqn:E.
    + apply match_at_markdown_link_length in E. simpl in E.
      rewrite length_app. specialize (IH (length s - length rest)%nat). simpl. lia.
    + specialize (IH 0%nat). simpl. lia.
  - specialize (IH skip). simpl. lia.
Qed.

Lemma length_list_ascii_of_string s : length (list_ascii_of_string s) = String.length s.
Proof. induction s as [|c s IH]; simpl; [done|]. by rewrite IH. Qed.

Lemma length_string_of_list_ascii l : String.length (string_of_list_ascii l) = length l.
Proof. induction l as [|c l IH]; simpl; [done|]. by rewrite IH. Qed.

Lemma has_char_false c s : has_char c s = false → c ∉ list_ascii_of_string s.
Proof.
  induction s as [|c' s IH]; simpl; [intros _; apply not_elem_of_nil|].
  intros [Hc Hs]%orb_false_iff. apply bool_decide_eq_false in Hc.
  intros [->|Hin]%elem_of_cons; [done|]. by apply IH.
Qed.

(** ** Theorems: Markdown links, continued *)

(** X6. A description with one link: when no [\[] precedes the link,
    the link target has no [\]], no [)] follows the link, and text and
    target are non-empty and on one line, the substitution replaces the
    link by its text and keeps the rest. *)
Theorem single_link_is_stripped (pre text target post : list ascii) :
  text ≠ [] → target ≠ [] → Forall dot text → Forall dot target →
  "["%char ∉ pre → "]"%char ∉ target → ")"%char ∉ post →
  remove_markdown_links
    (JStr (string_of_list_ascii
             (pre ++ "["%char :: text ++ "]"%char :: "("%char :: target ++ ")"%char :: post)))
  = Ok (string_of_list_ascii (pre ++ text ++ post)).
Proof. apply remove_markdown_links_single_link. Qed.

Lemma single_link_is_stripped_witness :
  remove_markdown_links (JStr "See the [fetch](https://x/y) spec") = Ok "See the fetch spec".
Proof.
  apply (single_link_is_stripped
           (list_ascii_of_string "See the ") (list_ascii_of_string "fetch")
           (list_ascii_of_string "https://x/y") (list_ascii_of_string " spec"));
    try done; try (repeat constructor); compute_done.
Defined.

(** X7. A string without [\[], or without [)], has no link: the
    substitution returns it unchanged. *)
Theorem remove_markdown_links_no_link (s : string) :
  has_char "[" s = false ∨ has_char ")" s = false →
  remove_markdown_links (JStr s) = Ok s.
Proof.
  intros H. unfold remove_markdown_links, re_sub_markdown_link. f_equal.
  rewrite <- (string_of_list_ascii_of_string s) at 2. f_equal.
  destruct H as [H|H].
  - rewrite <- (app_nil_r (list_ascii_of_string s)) at 1.
    rewrite sub_group1_no_bracket by by apply has_char_false.
    simpl. by rewrite app_nil_r.
  - apply sub_group1_no_paren. by apply has_char_false.
Qed.

Lemma remove_markdown_links_no_link_witness :
  remove_markdown_links (JStr "[wip] needs triage") = Ok "[wip] needs triage".
Proof. apply remove_markdown_links_no_link. by right. Defined.

(** X8. The substitution never lengthens a string, so a description of
    at most 100 characters passes the validator's length check whatever
    links it contains. *)
Theorem remove_markdown_links_shortens (l : label) (d : string) :
  l !! "description" = Some (JStr d) →
  (String.length (re_sub_markdown_link d) ≤ String.length d)%nat
  ∧ (len d ≤ 100 → description_short l = true).
Proof.
  intros Hd.
  assert (String.length (re_sub_markdown_link d) ≤ String.length d)%nat as Hlen.
  { unfold re_sub_markdown_link. rewrite length_string_of_list_ascii.
    pose proof (sub_group1_length (list_ascii_of_string d) 0) as H.
    rewrite length_list_ascii_of_string in H. lia. }
  split; [done|]. intros H100. unfold description_short. rewrite Hd.
  unfold len in *. apply Z.leb_le. lia.
Qed.

Lemma remove_markdown_links_shortens_witness :
  (String.length (re_sub_markdown_link "[Security](https://x/y) issues")
   ≤ String.length "[Security](https://x/y) issues")%nat
  ∧ (len "[Security](https://x/y) issues" ≤ 100 → description_short local_security = true).
Proof.
  exact (remove_markdown_links_shortens local_security "[Security](https://x/y) issues" eq_refl).
Defined.

(** ** Proofs: URLs *)

Lemma quote_with_app safe a b :
  quote_with safe (a +:+ b) = quote_with safe a +:+ quote_with safe b.
Proof.
  induction a as [|c a IH]; [done|].
  change (quote_char safe c +:+ quote_with safe (a +:+ b)
          = (quote_char safe c +:+ quote_with safe a) +:+ quote_with safe b).
  by rewrite IH, str_app_assoc.
Qed.

Lemma replace_char_app old new a b :
  replace_char old new (a +:+ b) = replace_char old new a +:+ replace_char old new b.
Proof.
  induction a as [|c a IH]; [done|].
  change (String (if is_char old c then new else c) (replace_char old new (a +:+ b))
          = String (if is_char old c then new else c)
              (replace_char old new a +:+ replace_char old new b)).
  by rewrite IH.
Qed.

Lemma all_chars_app p a b : all_chars p (a +:+ b) = all_chars p a && all_chars p b.
Proof.
  induction a as [|c a IH]; [done|].
  change (p c && all_chars p (a +:+ b) = p c && all_chars p a && all_chars p b).
  rewrite IH. by destruct (p c).
Qed.

Lemma quote_char_path c : all_chars path_char (quote_char (is_char "/") c) = true.
Proof. destruct c as [[] [] [] [] [] [] [] []]; reflexivity. Qed.

Lemma quote_with_path s : all_chars path_char (quote_with (is_char "/") s) = true.
Proof.
  induction s as [|c s IH]; [done|].
  change (all_chars path_char (quote_char (is_char "/") c +:+ quote_with (is_char "/") s) = true).
  by rewrite all_chars_app, quote_char_path, IH.
Qed.

(** ** Theorems: URLs *)

(** X9. Two label names have the same label URL only if they are the
    same name: no two labels share a remote address. *)
Theorem label_name_url_inj (common_url a b target : string) :
  label_name_url common_url (JStr a) = Ok target →
  label_name_url common_url (JStr b) = Ok target →
  a = b.
Proof.
  unfold label_name_url, quote. simpl. intros [= <-] [= H].
  apply string_app_inv_head in H. simpl in H. injection H as H.
  symmetry. by apply quote_with_inj.
Qed.

Lemma label_name_url_inj_witness :
  label_name_url "https://h/labels" (JStr "help wanted") = Ok "https://h/labels/help%20wanted"
  ∧ "help wanted" = "help wanted".
Proof.
  split; [reflexivity|].
  exact (label_name_url_inj "https://h/labels" "help wanted" "help wanted"
           "https://h/labels/help%20wanted" eq_refl eq_refl).
Defined.

(** X10. A space in a label name is sent as [%20] in the label URL and
    written as [+] in the search URL of the documentation, and both
    quotings work piece by piece. *)
Theorem space_in_label_name (common_url a b : string) :
  label_name_url common_url (JStr (a +:+ " " +:+ b))
  = Ok (common_url +:+ "/" +:+ quote_with (is_char "/") a +:+ "%20" +:+ quote_with (is_char "/") b)
  ∧ ∃ qa qb, quote_plus (JStr a) = Ok qa ∧ quote_plus (JStr b) = Ok qb
             ∧ quote_plus (JStr (a +:+ " " +:+ b)) = Ok (qa +:+ "+" +:+ qb).
Proof.
  split.
  - unfold label_name_url, quote. simpl. by rewrite !quote_with_app.
  - eexists _, _. split; [reflexivity|]. split; [reflexivity|].
    unfold quote_plus. by rewrite !quote_with_app, !replace_char_app.
Qed.

(** X11. The part of a label URL after the common URL consists of
    unreserved characters, [/] and percent escapes only: a label name
    cannot put a space, a [?] or a [#] into the address. *)
Theorem label_name_url_path (common_url name : string) :
  ∃ path, label_name_url common_url (JStr name) = Ok (common_url +:+ "/" +:+ path)
          ∧ all_chars path_char path = true
          ∧ has_char " " path = false ∧ has_char "?" path = false ∧ has_char "#" path = false.
Proof.
  exists (quote_with (is_char "/") name). split; [done|].
  pose proof (quote_with_path name) as H. split; [done|].
  assert (∀ c s, path_char c = false → all_chars path_char s = true → has_char c s = false) as Hno.
  { intros c s Hc. induction s as [|c' s IH]; simpl; [done|].
    intros [Hc' Hs]%andb_true_iff. rewrite (IH Hs), orb_false_r.
    apply bool_decide_eq_false. intros ->. congruence. }
  repeat split; by apply Hno.
Qed.

(** ** Proofs: the sync loop *)

Lemma for_each_app {A} (l1 l2 : list A) body w :
  for_each (l1 ++ l2) body w =
  match for_each l1 body w with
  | (Ok _, w') => for_each l2 body w'
  | (Raise e, w') => (Raise e, w')
  end.
Proof.
  revert w. induction l1 as [|x l1 IH]; intros w; [done|].
  change ((x :: l1) ++ l2) with (x :: (l1 ++ l2)). rewrite !for_each_cons.
  destruct (body x w) as [[[]|e] w']; [apply IH|done].
Qed.

Lemma for_each_preserves {A} (R : world → world → Prop) (body : A → M unit) l w :
  (∀ w, R w w) → (∀ w1 w2 w3, R w1 w2 → R w2 w3 → R w1 w3) →
  (∀ x w, R w (body x w).2) → R w (for_each l body w).2.
Proof.
  intros Hrefl Htrans Hbody. revert w. induction l as [|x l IH]; intros w; [apply Hrefl|].
  rewrite for_each_cons. specialize (Hbody x w).
  destruct (body x w) as [[[]|e] w']; simpl in *; [|done].
  eapply Htrans; [exact Hbody|apply IH].
Qed.

Lemma documented_texts l n d :
  l !! "name" = Some (JStr n) → l !! "description" = Some (JStr d) →
  name_text l = n ∧ description_text l = d.
Proof. intros Hn Hd. unfold name_text, description_text. by rewrite Hn, Hd. Qed.

(** One turn of the sync loop on a record the store knows, or fails on. *)
Lemma adjust_label_other common token (l : label) n d w :
  l !! "name" = Some (JStr n) →
  l !! "description" = Some (JStr d) →
  let patch := update_request common token n (sanitized l d) in
  remote w (requests w ++ [patch]) ≠ 404 →
  adjust_label common token l w =
  (Ok tt,
   add_stdout (update_report n (remote w (requests w ++ [patch]))) (add_requests [patch] w)).
Proof.
  intros Hn Hd patch H404.
  unfold adjust_label. rewrite (sanitize_spec _ _ Hd).
  unfold update_label, add_label, label_name_url, quote, fetch, error. run_M.
  unfold str_add, getitem. rewrite sanitized_name, Hn. simpl.
  fold (update_request common token n (sanitized l d)). fold patch.
  destruct (Z.eqb_spec (remote w (requests w ++ [patch])) 404) as [|_]; [done|].
  unfold update_report.
  destruct (Z.eqb_spec (remote w (requests w ++ [patch])) 200) as [->|H200]; simpl.
  - by rewrite add_stdout_nil.
  - rewrite bool_decide_eq_false_2 by done. reflexivity.
Qed.

Lemma sync_trace_spec common token labels :
  Forall documented labels →
  ∀ w,
    for_each labels (adjust_label common token) w =
    (Ok tt,
     add_stdout (sync_trace (remote w) (requests w) common token labels).2
       (add_requests (sync_trace (remote w) (requests w) common token labels).1 w)).
Proof.
  induction 1 as [|l labels (n & d & Hn & Hd) _ IH]; intros w.
  { simpl. by rewrite add_requests_nil, add_stdout_nil. }
  destruct (documented_texts l n d Hn Hd) as [En Ed].
  rewrite for_each_cons. cbn [sync_trace]. rewrite En, Ed.
  set (sent := sanitized l d).
  set (patch := update_request common token n sent).
  set (post := create_request common token sent).
  destruct (Z.eqb_spec (remote w (requests w ++ [patch])) 404) as [H404|H404].
  - rewrite (adjust_label_not_found common token l n d w Hn Hd H404).
    fold sent patch post. rewrite IH. cbn [remote requests add_stdout add_requests].
    destruct (sync_trace (remote w) (requests w ++ [patch; post]) common token labels)
      as [rs out].
    unfold add_stdout, add_requests. simpl. by rewrite <- !app_assoc.
  - rewrite (adjust_label_other common token l n d w Hn Hd H404).
    fold sent patch. rewrite IH. cbn [remote requests add_stdout add_requests].
    destruct (sync_trace (remote w) (requests w ++ [patch]) common token labels)
      as [rs out].
    unfold add_stdout, add_requests. simpl. by rewrite <- !app_assoc.
Qed.

Lemma sync_trace_patches store log common token labels :
  List.filter (fun q => bool_decide (req_method q = "PATCH"))
    (sync_trace store log common token labels).1
  = map (fun l => update_request common token (name_text l) (sanitized l (description_text l)))
      labels
  ∧ (length (sync_trace store log common token labels).1 ≤ 2 * length labels)%nat.
Proof.
  revert log. induction labels as [|l labels IH]; intros log; [done|].
  cbn [sync_trace].
  destruct (_ =? 404).
  - destruct (IH (log ++ [update_request common token (name_text l)
                              (sanitized l (description_text l));
                          create_request common token (sanitized l (description_text l))]))
      as [IH1 IH2].
    destruct (sync_trace _ _ _ _ labels) as [rs out]. simpl in *.
    split; [by rewrite IH1|lia].
  - destruct (IH (log ++ [update_request common token (name_text l)
                              (sanitized l (description_text l))])) as [IH1 IH2].
    destruct (sync_trace _ _ _ _ labels) as [rs out]. simpl in *.
    split; [by rewrite IH1|lia].
Qed.

Lemma adjust_label_missing_description common token (l : label) w :
  l !! "description" = None → adjust_label common token l w = (Raise KeyError, w).
Proof.
  intros Hd. unfold adjust_label, sanitize, getitem. rewrite Hd. reflexivity.
Qed.

Lemma sanitize_no_exclude l l' :
  sanitize l = Ok l' → l' !! "url_exclude_is_open" = None.
Proof.
  unfold sanitize. intros H.
  apply bind_Ok in H as (d & _ & H). apply bind_Ok in H as (s & _ & H).
  injection H as <-. unfold contains. case_bool_decide as Hc.
  - apply lookup_delete_eq.
  - by apply eq_None_not_Some.
Qed.

Lemma adjust_label_no_exclude common token l w :
  sent_only no_exclude_flag w (adjust_label common token l w).2.
Proof.
  unfold adjust_label, update_label, add_label, label_name_url, quote, fetch, error. run_M.
  destruct (sanitize l) as [l'|e] eqn:Hs; [|by apply sent_only_refl].
  apply sanitize_no_exclude in Hs.
  assert (∀ m u, no_exclude_flag
            {| req_method := m; req_url := u; req_token := token; req_body := Some l' |}) as Hok.
  { intros m u b [= <-]. done. }
  destruct (getitem l' "name") as [[| | |n]|e]; simpl; try by apply sent_only_refl.
  destruct (_ =? 404); simpl.
  - destruct (_ =? 201); simpl;
      (eexists [_; _]; split; [simpl; by rewrite <- app_assoc|by repeat constructor]).
  - destruct (_ =? 200); simpl;
      (eexists [_]; split; [done|by repeat constructor]).
Qed.

Lemma same_files_refl w : same_files w w.
Proof. by repeat split. Qed.

Lemma same_files_trans w1 w2 w3 : same_files w1 w2 → same_files w2 w3 → same_files w1 w3.
Proof. unfold same_files. intros (? & ? & ?) (? & ? & ?). repeat split; congruence. Qed.

Lemma lint_label_same_files l w : same_files w (lint_label l w).2.
Proof. lint_cases l; by repeat split. Qed.

Lemma adjust_label_same_files common token l w :
  same_files w (adjust_label common token l w).2.
Proof.
  unfold adjust_label, update_label, add_label, label_name_url, quote, fetch, error. run_M.
  destruct (sanitize l) as [l'|e]; [|apply same_files_refl].
  destruct (getitem l' "name") as [[| | |n]|e]; simpl; try apply same_files_refl.
  destruct (_ =? 404); simpl.
  - destruct (_ =? 201); simpl; by repeat split.
  - destruct (_ =? 200); simpl; by repeat split.
Qed.

Lemma update_and_add_labels_preserves (R : world → world → Prop) common token w :
  (∀ w, R w w) → (∀ w1 w2 w3, R w1 w2 → R w2 w3 → R w1 w3) →
  (∀ l w, R w (lint_label l w).2) →
  (∀ l w, R w (adjust_label common token l w).2) →
  R w (update_and_add_labels common token w).2.
Proof.
  intros Hrefl Htrans Hlint Hadjust. unfold update_and_add_labels, get_labels. run_M.
  pose proof (for_each_preserves R lint_label (labels_json w) w Hrefl Htrans Hlint) as H.
  unfold lint_labels. destruct (for_each (labels_json w) lint_label w) as [[[]|e] w']; [|done].
  simpl in *. eapply Htrans; [exact H|]. by apply for_each_preserves.
Qed.

Lemma sent_only_refl' ok w : sent_only ok w w.
Proof. by apply sent_only_refl. Qed.

(** ** Theorems: the sync run *)

(** X12. On a record set whose records all have a string name and a
    string description the sync run ends normally whatever the store
    answers: after the seven deletes it sends, record by record, the
    update and, exactly when the update is answered 404, one create; it
    prints the delete failures, the validator's report and then one line
    per update answered neither 200 nor 404 and per create not answered
    201. *)
Theorem sync_run_trace organization repository token w :
  Forall documented (labels_json w) →
  let common_url := repository_url organization repository in
  let deletes := map (delete_request common_url token) default_labels in
  let trace := sync_trace (remote w) (requests w ++ deletes) common_url token (labels_json w) in
  adjust_repository_labels organization repository token w =
  (Ok tt,
   add_stdout
     (delete_reports (remote w) (requests w) common_url token default_labels
      ++ flat_map violations (labels_json w) ++ trace.2)
     (add_requests (deletes ++ trace.1) w)).
Proof.
  intros H common_url deletes trace.
  destruct (adjust_repository_labels_run organization repository token w) as [_ ->].
  fold common_url deletes.
  unfold update_and_add_labels, get_labels. run_M. cbn [labels_json add_stdout add_requests].
  rewrite lint_labels_spec.
  2:{ eapply Forall_impl; [exact H|]. apply documented_text_fields. }
  rewrite sync_trace_spec by done. cbn [remote requests add_stdout add_requests].
  fold trace. unfold add_stdout, add_requests. simpl. by rewrite <- !app_assoc.
Qed.

Lemma sync_run_trace_witness :
  let w := world_of local_set empty_store in
  let common_url := repository_url "whatwg" "fetch" in
  let deletes := map (delete_request common_url "token") default_labels in
  let trace := sync_trace (remote w) (requests w ++ deletes) common_url "token" (labels_json w) in
  adjust_repository_labels "whatwg" "fetch" "token" w =
  (Ok tt,
   add_stdout
     (delete_reports (remote w) (requests w) common_url "token" default_labels
      ++ flat_map violations (labels_json w) ++ trace.2)
     (add_requests (deletes ++ trace.1) w)).
Proof.
  apply sync_run_trace.
  repeat constructor; eexists _, _; split; reflexivity.
Defined.

(** X13. In the loop over documented records every record gets exactly
    one update, in the order of the record set, carrying the record
    without [url_exclude_is_open] and with the links of its description
    stripped; with the creates the loop sends at most two requests per
    record. *)
Theorem one_update_per_record common_url token (labels : list label) w :
  Forall documented labels →
  ∃ sent,
    requests (for_each labels (adjust_label common_url token) w).2 = requests w ++ sent
    ∧ List.filter (fun q => bool_decide (req_method q = "PATCH")) sent
      = map (fun l => update_request common_url token (name_text l)
                        (sanitized l (description_text l))) labels
    ∧ (length sent ≤ 2 * length labels)%nat.
Proof.
  intros H. rewrite (sync_trace_spec common_url token labels H w).
  exists (sync_trace (remote w) (requests w) common_url token labels).1.
  split; [done|]. apply sync_trace_patches.
Qed.

Lemma one_update_per_record_witness :
  ∃ sent,
    requests (for_each local_set (adjust_label "https://h/labels" "token")
                (world_of local_set empty_store)).2
    = requests (world_of local_set empty_store) ++ sent
    ∧ List.filter (fun q => bool_decide (req_method q = "PATCH")) sent
      = map (fun l => update_request "https://h/labels" "token" (name_text l)
                        (sanitized l (description_text l))) local_set
    ∧ (length sent ≤ 2 * length local_set)%nat.
Proof.
  apply one_update_per_record.
  repeat constructor; eexists _, _; split; reflexivity.
Defined.

(** X14. A record without a description stops the loop: the records in
    front of it are synced, the loop then raises [KeyError] without
    sending anything for that record, and the records behind it are not
    looked at. *)
Theorem sync_stops_at_missing_description common_url token
    (pre rest : list label) (l : label) w :
  Forall documented pre → l !! "description" = None →
  ∃ w',
    for_each pre (adjust_label common_url token) w = (Ok tt, w')
    ∧ for_each (pre ++ l :: rest) (adjust_label common_url token) w = (Raise KeyError, w').
Proof.
  intros Hpre Hd. eexists. split; [by apply sync_trace_spec|].
  rewrite for_each_app, (sync_trace_spec common_url token pre Hpre w).
  by rewrite for_each_cons, adjust_label_missing_description.
Qed.

Lemma sync_stops_at_missing_description_witness :
  ∃ w',
    for_each [local_security] (adjust_label "https://h/labels" "token")
      (world_of [] quiet_store) = (Ok tt, w')
    ∧ for_each ([local_security] ++ numbered_name :: [local_privacy])
        (adjust_label "https://h/labels" "token") (world_of [] quiet_store)
      = (Raise KeyError, w').
Proof.
  apply sync_stops_at_missing_description; [|reflexivity].
  repeat constructor; eexists _, _; split; reflexivity.
Defined.

(** X15. The remote store never receives [url_exclude_is_open]: no
    request of a sync run has a body with that key, whatever the local
    record set is and however the run ends. *)
Theorem sync_never_sends_exclude_flag organization repository token w :
  ∃ sent,
    requests (adjust_repository_labels organization repository token w).2 = requests w ++ sent
    ∧ Forall no_exclude_flag sent.
Proof.
  destruct (adjust_repository_labels_run organization repository token w) as [_ ->].
  set (common_url := repository_url organization repository).
  set (w1 := add_stdout _ _).
  assert (sent_only no_exclude_flag w w1) as H1.
  { exists (map (delete_request common_url token) default_labels). split; [done|].
    apply Forall_forall. intros q (d & <- & _)%list_elem_of_In%in_map_iff. by intros b. }
  apply (sent_only_trans _ w w1); [done|].
  apply (update_and_add_labels_preserves (sent_only no_exclude_flag)).
  - apply sent_only_refl'.
  - apply sent_only_trans.
  - intros l w'. apply sent_only_refl, lint_label_requests.
  - apply adjust_label_no_exclude.
Qed.

(** X16. A sync run changes nothing on disk: [labels.json] and
    [LABELS.md] are the same after the run as before, however it ends. *)
Theorem sync_leaves_files organization repository token w :
  let w' := (adjust_repository_labels organization repository token w).2 in
  labels_json w' = labels_json w ∧ labels_md w' = labels_md w.
Proof.
  destruct (adjust_repository_labels_run organization repository token w) as [_ ->].
  set (common_url := repository_url organization repository).
  set (w1 := add_stdout _ _).
  assert (same_files w w1) as H1 by by repeat split.
  assert (same_files w (update_and_add_labels common_url token w1).2) as (? & ? & _).
  { apply (same_files_trans w w1); [done|].
    apply (update_and_add_labels_preserves same_files).
    - apply same_files_refl.
    - apply same_files_trans.
    - apply lint_label_same_files.
    - apply adjust_label_same_files. }
  by split.
Qed.

(** ** Proofs: the merge without uniqueness *)

Lemma py_eq_trans a b c : py_eq a b = true → py_eq b c = true → py_eq a c = true.
Proof. rewrite !py_eq_key_of. congruence. Qed.

Lemma build_index_missing_name rest i d u :
  u ∈ rest → u !! "name" = None → build_index rest i d = Raise KeyError.
Proof.
  intros Hu Hn. revert i d. induction rest as [|u' rest IH]; intros i d.
  { by apply elem_of_nil in Hu. }
  simpl. unfold getitem. apply elem_of_cons in Hu as [<-|Hu].
  - by rewrite Hn.
  - destruct (u' !! "name"); [|done]. simpl. by apply IH.
Qed.

Lemma index_get_set m n i d :
  index_get m (index_set n i d) = if py_eq n m then Some i else index_get m d.
Proof.
  induction d as [|[k j] d IH]; simpl.
  { by destruct (py_eq n m). }
  destruct (py_eq k n) eqn:Hkn; simpl.
  - destruct (py_eq k m) eqn:Hkm, (py_eq n m) eqn:Hnm; try done.
    + rewrite py_eq_sym in Hkn. by rewrite (py_eq_trans _ _ _ Hkn Hkm) in Hnm.
    + by rewrite (py_eq_trans _ _ _ Hkn Hnm) in Hkm.
  - destruct (py_eq k m) eqn:Hkm; [|exact IH].
    destruct (py_eq n m) eqn:Hnm; [|done].
    rewrite (py_eq_sym n m) in Hnm. by rewrite (py_eq_trans _ _ _ Hkm Hnm) in Hkn.
Qed.

Lemma index_get_del m n d :
  py_eq n m = false → index_get m (index_del n d) = index_get m d.
Proof.
  intros Hnm. induction d as [|[k j] d IH]; simpl; [done|].
  destruct (py_eq k n) eqn:Hkn; simpl.
  - destruct (py_eq k m) eqn:Hkm; [|done].
    rewrite py_eq_sym in Hkn. by rewrite (py_eq_trans _ _ _ Hkn Hkm) in Hnm.
  - by rewrite IH.
Qed.

Lemma build_index_covers rest i d d' :
  build_index rest i d = Ok d' →
  (∀ n, is_Some (index_get n d) → is_Some (index_get n d'))
  ∧ ∀ u n, u ∈ rest → u !! "name" = Some n → is_Some (index_get n d').
Proof.
  revert i d. induction rest as [|u rest IH]; intros i d H; simpl in H.
  { injection H as <-. split; [done|]. intros u n Hu. by apply elem_of_nil in Hu. }
  apply bind_Ok in H as (m & Hm%getitem_Ok & H).
  destruct (IH _ _ H) as [Hkeep Hnew]. split.
  - intros n Hn. apply Hkeep. rewrite index_get_set. by destruct (py_eq m n).
  - intros u' n [->|Hu]%elem_of_cons Hn; [|by eapply Hnew].
    apply Hkeep. rewrite index_get_set.
    assert (m = n) as -> by congruence. by rewrite py_eq_refl.
Qed.

Lemma overwrite_w3c l u l' : overwrite l u = Ok l' → l' !! "w3c" = Some (JBool true).
Proof.
  intros (d & c & _ & _ & ->)%overwrite_Ok. apply lookup_insert_eq.
Qed.

Lemma adopted_name_w3c u a :
  adopted u = Ok a → a !! "name" = u !! "name" ∧ a !! "w3c" = Some (JBool true).
Proof.
  intros (n & d & c & Hn & _ & _ & ->)%adopted_Ok. split.
  - by rewrite lookup_insert_eq.
  - rewrite !lookup_insert_ne by done. apply lookup_insert_eq.
Qed.

(** What a pass does to each record, and what it uses up. *)
Lemma update_local_shape U L d L' d' :
  index_ok U d → update_local U L d = Ok (L', d') →
  Forall2 (fun l l' =>
             (l' = l ∧ contains "w3c" l = false)
             ∨ ∃ u, u ∈ U ∧ same_name l u = true ∧ overwrite l u = Ok l') L L'
  ∧ ∀ n, is_Some (index_get n d) →
         is_Some (index_get n d')
         ∨ ∃ l' m, l' ∈ L' ∧ l' !! "name" = Some m ∧ py_eq m n = true
                   ∧ l' !! "w3c" = Some (JBool true).
Proof.
  revert d L' d'. induction L as [|l L IH]; intros d L' d' Hd H.
  { injection H as <- <-. split; [constructor|]. intros n Hn. by left. }
  apply update_local_cons_Ok in H as (n & Hn & H).
  destruct (index_get n d) as [i|] eqn:Hi.
  - destruct H as (u & l' & L1 & d1 & Hu & Hl' & HL & [= -> ->]).
    destruct (IH _ _ _ (index_del_ok U n d Hd) HL) as [Hshape Hcover].
    assert (same_name l u = true) as Hsame.
    { apply index_get_Some in Hi as (k & Hin & Hk).
      unfold index_ok in Hd. rewrite Forall_forall in Hd.
      destruct (Hd _ Hin) as (u' & m & Hu' & Hm & Hkm). simpl in *.
      assert (u' = u) as -> by congruence.
      unfold same_name. rewrite Hn, Hm. rewrite py_eq_sym in Hk.
      by apply (py_eq_trans _ _ _ Hk Hkm). }
    split.
    + constructor; [|done]. right. exists u. split; [by eapply list_elem_of_lookup_2|done].
    + intros m Hm. destruct (py_eq n m) eqn:Hnm.
      * right. exists l', n. split; [left|].
        rewrite (overwrite_name _ _ _ Hl'). split; [done|]. split; [done|].
        by eapply overwrite_w3c.
      * destruct (Hcover m) as [?|(l2 & m2 & ? & ? & ? & ?)].
        { by rewrite index_get_del. }
        { by left. }
        { right. exists l2, m2. split; [by right|done]. }
  - destruct H as (Hw & L1 & d1 & HL & [= -> ->]).
    destruct (IH _ _ _ Hd HL) as [Hshape Hcover]. split.
    + constructor; [|done]. by left.
    + intros m Hm. destruct (Hcover m Hm) as [?|(l2 & m2 & ? & ? & ? & ?)]; [by left|].
      right. exists l2, m2. split; [by right|done].
Qed.

Lemma adopt_new_shape U d A :
  index_ok U d → adopt_new U d = Ok A →
  Forall (fun a => ∃ u, u ∈ U ∧ adopted u = Ok a) A
  ∧ ∀ n, is_Some (index_get n d) →
         ∃ a m, a ∈ A ∧ a !! "name" = Some m ∧ py_eq m n = true
                ∧ a !! "w3c" = Some (JBool true).
Proof.
  unfold index_ok. intros Hd. revert A.
  induction Hd as [|[k i] d Hk Hd IH]; intros A H; simpl in H.
  { injection H as <-. split; [constructor|]. by intros n []. }
  apply bind_Ok in H as (u & Hu & H).
  unfold list_getitem in Hu. destruct (U !! i) as [u'|] eqn:Hi; [|done].
  injection Hu as ->.
  apply bind_Ok in H as (a & Ha & H).
  apply bind_Ok in H as (A' & HA' & H). injection H as <-.
  destruct (IH _ HA') as [Hshape Hcover].
  destruct Hk as (u' & m & Hi' & Hm & Hkm). simpl in *.
  assert (u' = u) as -> by congruence.
  destruct (adopted_name_w3c _ _ Ha) as [Han Haw].
  split.
  - constructor; [|done]. exists u. split; [by eapply list_elem_of_lookup_2|done].
  - intros n Hn. destruct (py_eq k n) eqn:Hkn.
    + exists a, m. split; [left|]. split; [congruence|]. split; [|done].
      rewrite py_eq_sym in Hkm. by apply (py_eq_trans _ _ _ Hkm Hkn).
    + destruct (Hcover n Hn) as (a' & m' & ? & ? & ? & ?).
      exists a', m'. split; [by right|done].
Qed.

Lemma merge_parts L U M :
  merge L U = Ok M →
  ∃ L' A,
    M = L' ++ A
    ∧ Forall2 (fun l l' =>
                 (l' = l ∧ contains "w3c" l = false)
                 ∨ ∃ u, u ∈ U ∧ same_name l u = true ∧ overwrite l u = Ok l') L L'
    ∧ Forall (fun a => ∃ u, u ∈ U ∧ adopted u = Ok a) A
    ∧ ∀ u, u ∈ U →
        ∃ r m n, r ∈ M ∧ r !! "name" = Some m ∧ u !! "name" = Some n ∧ py_eq m n = true
                 ∧ r !! "w3c" = Some (JBool true).
Proof.
  intros (d & L' & d' & A & Hd & HL & HA & ->)%merge_Ok.
  pose proof (build_index_ok [] U _ _ (index_ok_nil _) Hd) as Hok. simpl in Hok.
  pose proof (update_local_ok _ _ _ _ _ Hok HL) as Hok'.
  destruct (update_local_shape _ _ _ _ _ Hok HL) as [HshapeL HcoverL].
  destruct (adopt_new_shape _ _ _ Hok' HA) as [HshapeA HcoverA].
  destruct (build_index_covers _ _ _ _ Hd) as [_ HcoverU].
  exists L', A. split; [done|]. split; [done|]. split; [done|].
  intros u Hu.
  destruct (u !! "name") as [n|] eqn:Hn.
  2:{ by rewrite (build_index_missing_name U 0%nat [] u Hu Hn) in Hd. }
  destruct (HcoverL n (HcoverU u n Hu Hn)) as [Hin|(l' & m & Hl' & Hm & Hmn & Hw)].
  - destruct (HcoverA n Hin) as (a & m & Ha & Hm & Hmn & Hw).
    exists a, m, n. split; [apply elem_of_app; by right|done].
  - exists l', m, n. split; [apply elem_of_app; by left|done].
Qed.

Lemma overwrite_merged l u l' : overwrite l u = Ok l' → l' = merged_record l u.
Proof.
  intros (d & c & Hd & Hc & ->)%overwrite_Ok. unfold merged_record, field.
  by rewrite Hd, Hc.
Qed.

Lemma adopted_adopted_record u a : adopted u = Ok a → a = adopted_record u.
Proof.
  intros (n & d & c & Hn & Hd & Hc & ->)%adopted_Ok. unfold adopted_record, field.
  by rewrite Hn, Hd, Hc.
Qed.

(** ** Theorems: the merge, for any record set and feed *)

(** X17. Whenever the merge succeeds, with or without duplicate names,
    its result is the local records in their places, each either
    untouched or merged with an upstream record of its name, followed by
    records adopted from upstream records; no local record is dropped,
    moved or renamed. *)
Theorem merge_keeps_local_records (L U M : list label) :
  merge L U = Ok M →
  ∃ L' A,
    M = L' ++ A
    ∧ Forall2 (fun l l' =>
                 l' !! "name" = l !! "name"
                 ∧ (l' = l ∨ ∃ u, u ∈ U ∧ same_name l u = true ∧ l' = merged_record l u)) L L'
    ∧ Forall (fun a => ∃ u, u ∈ U ∧ a = adopted_record u) A.
Proof.
  intros (L' & A & -> & HL & HA & _)%merge_parts. exists L', A. split; [done|]. split.
  - eapply Forall2_impl; [exact HL|]. intros l l' [[-> _]|(u & Hu & Hs & Ho)].
    + split; [done|by left].
    + split; [by eapply overwrite_name|]. right. exists u.
      split; [done|]. split; [done|]. by apply overwrite_merged.
  - eapply Forall_impl; [exact HA|]. intros a (u & Hu & Ha). exists u.
    split; [done|]. by apply adopted_adopted_record.
Qed.

Lemma merge_keeps_local_records_witness :
  ∃ L' A,
    reference local_set feed = L' ++ A
    ∧ Forall2 (fun l l' =>
                 l' !! "name" = l !! "name"
                 ∧ (l' = l ∨ ∃ u, u ∈ feed ∧ same_name l u = true ∧ l' = merged_record l u))
        local_set L'
    ∧ Forall (fun a => ∃ u, u ∈ feed ∧ a = adopted_record u) A.
Proof.
  apply (merge_keeps_local_records local_set feed). by vm_compute.
Defined.

Lemma merge_consistent (L U M : list label) (r : label) :
  merge L U = Ok M → r ∈ M → contains "w3c" r = true →
  ∃ u, u ∈ U ∧ same_name r u = true.
Proof.
  intros (L' & A & -> & HL & HA & _)%merge_parts [Hr|Hr]%elem_of_app Hw.
  - apply list_elem_of_lookup in Hr as [i Hi].
    destruct (Forall2_lookup_r _ _ _ _ _ HL Hi) as (l & _ & [[-> Hno]|(u & Hu & Hs & Ho)]).
    + congruence.
    + exists u. split; [done|]. unfold same_name in *.
      by rewrite (overwrite_name _ _ _ Ho).
  - rewrite Forall_forall in HA. destruct (HA r Hr) as (u & Hu & Ha).
    exists u. split; [done|].
    destruct (adopted_name_w3c _ _ Ha) as [Hn _].
    apply adopted_Ok in Ha as (n & ? & ? & Hun & _).
    unfold same_name. rewrite Hn, Hun. apply py_eq_refl.
Qed.

(** X18. A successful merge leaves a consistent record set: every record
    of the result that carries a [w3c] key has its name in the feed, so
    the assertion cannot fail when the same feed is merged again. *)
Theorem merge_result_consistent (L U M : list label) (r : label) :
  merge L U = Ok M → r ∈ M → contains "w3c" r = true →
  ∃ u, u ∈ U ∧ same_name r u = true.
Proof. apply merge_consistent. Qed.

Lemma merge_result_consistent_witness :
  ∃ u, u ∈ feed ∧ same_name adopted_i18n u = true.
Proof.
  apply (merge_result_consistent local_set feed (reference local_set feed) adopted_i18n).
  - by vm_compute.
  - vm_compute. right. right. left.
  - by vm_compute.
Defined.

(** X19. A successful merge represents every upstream record: for each
    record of the feed the result holds a record of that name with
    [w3c = true], whether it was merged into a local record or adopted. *)
Theorem merge_covers_feed (L U M : list label) (u : label) :
  merge L U = Ok M → u ∈ U →
  ∃ r, r ∈ M ∧ same_name r u = true ∧ r !! "w3c" = Some (JBool true).
Proof.
  intros (L' & A & -> & _ & _ & Hcover)%merge_parts Hu.
  destruct (Hcover u Hu) as (r & m & n & Hr & Hm & Hn & Hmn & Hw).
  exists r. split; [done|]. split; [|done]. unfold same_name. by rewrite Hm, Hn.
Qed.

Lemma merge_covers_feed_witness :
  ∃ r, r ∈ reference local_set feed ∧ same_name r upstream_privacy = true
       ∧ r !! "w3c" = Some (JBool true).
Proof.
  apply (merge_covers_feed local_set feed (reference local_set feed) upstream_privacy).
  - by vm_compute.
  - left.
Defined.

(** X20. An upstream record without a name stops the import before the
    local records are looked at: the merge raises [KeyError] whatever
    the local record set is, and nothing is written or printed. *)
Theorem import_feed_record_without_name (U : list label) (u : label) (w : world) :
  u ∈ U → u !! "name" = None →
  merge (labels_json w) U = Raise KeyError
  ∧ import_w3c_labels U w = (Raise KeyError, w).
Proof.
  intros Hu Hn.
  assert (merge (labels_json w) U = Raise KeyError) as H.
  { unfold merge. by rewrite (build_index_missing_name U 0%nat [] u Hu Hn). }
  split; [done|]. unfold import_w3c_labels, get_labels. run_M. by rewrite H.
Qed.

Lemma import_feed_record_without_name_witness :
  merge (labels_json (world_of local_set quiet_store)) [upstream_privacy; nameless]
  = Raise KeyError
  ∧ import_w3c_labels [upstream_privacy; nameless] (world_of local_set quiet_store)
    = (Raise KeyError, world_of local_set quiet_store).
Proof.
  apply (import_feed_record_without_name [upstream_privacy; nameless] nameless).
  - right. left.
  - reflexivity.
Defined.

(** ** Proofs: the driver *)

Lemma split_length sep s : length (split sep s) = S (count_char sep s).
Proof.
  induction s as [|c s IH]; [done|]. cbn [split count_char].
  case_bool_decide; simpl; [by rewrite IH|].
  destruct (split sep s) as [|piece pieces]; simpl in *; [done|lia].
Qed.

Lemma split_no_separator sep s : has_char sep s = false → split sep s = [s].
Proof.
  induction s as [|c s IH]; [done|]. cbn [has_char split].
  intros [Hc Hs]%orb_false_iff. rewrite Hc. by rewrite (IH Hs).
Qed.

Lemma split_join sep a b :
  has_char sep a = false →
  split sep (a +:+ String sep b) = a :: split sep b.
Proof.
  induction a as [|c a IH].
  - intros _. change ("" +:+ String sep b) with (String sep b).
    cbn [split]. by rewrite bool_decide_eq_true_2.
  - cbn [has_char]. intros [Hc Ha]%orb_false_iff.
    change (String c a +:+ String sep b) with (String c (a +:+ String sep b)).
    cbn [split]. rewrite Hc. by rewrite (IH Ha).
Qed.

Lemma has_char_app_sep sep a b : has_char sep (a +:+ String sep b) = true.
Proof.
  induction a as [|c a IH].
  - change ("" +:+ String sep b) with (String sep b).
    cbn [has_char]. by rewrite bool_decide_eq_true_2.
  - change (String c a +:+ String sep b) with (String c (a +:+ String sep b)).
    cbn [has_char]. rewrite IH. by destruct (bool_decide _).
Qed.

Lemma truthy_app_sep sep a b : truthy (Some (a +:+ String sep b)) = true.
Proof. by destruct a. Qed.

Lemma create_labels_docs_requests labels w :
  requests (create_labels_docs labels w).2 = requests w.
Proof.
  unfold create_labels_docs. run_M.
  destruct (format_labels false labels docs_header) as [out|e]; [|done]. simpl.
  by destruct (format_labels true labels _).
Qed.

Lemma update_labels_requests labels w : requests (update_labels labels w).2 = requests w.
Proof.
  unfold update_labels. run_M.
  pose proof (lint_labels_requests labels w) as H.
  destruct (lint_labels labels w) as [[[]|e] w1]; simpl in *; [|done].
  destruct (sort_by_name labels) as [sorted|e]; simpl; [|done].
  unfold write_labels_json. by rewrite create_labels_docs_requests.
Qed.

Lemma import_w3c_labels_requests U w : requests (import_w3c_labels U w).2 = requests w.
Proof.
  unfold import_w3c_labels, get_labels. run_M.
  destruct (merge (labels_json w) U) as [M|e]; [|done]. apply update_labels_requests.
Qed.

(** ** Theorems: the driver *)

(** X21. [--repository org/name] with a token and neither
    [--import-w3c] nor [--update]: when the value has exactly the one
    slash, the script syncs the repository whose label URL is the value
    between [https://api.github.com/repos/] and [/labels]. *)
Theorem main_syncs_repository (a : args) (organization name tok : string)
    (w3c_labels : list label) (shortnames : list string) (usage : string) (w : world) :
  import_w3c a = false → update a = false →
  repository a = Some (organization +:+ "/" +:+ name) →
  has_char "/" organization = false → has_char "/" name = false →
  token a = Some tok → tok ≠ "" →
  main a w3c_labels shortnames usage w
  = run (adjust_repository_labels organization name tok) w
  ∧ repository_url organization name
    = "https://api.github.com/repos/" +:+ (organization +:+ "/" +:+ name) +:+ "/labels".
Proof.
  intros Hi Hu Hr Ho Hn Ht Htok. split.
  - unfold main. rewrite Hi, Hu, Hr, Ht. cbn [from_option id].
    change (organization +:+ "/" +:+ name) with (organization +:+ String "/" name).
    rewrite truthy_app_sep, has_char_app_sep.
    assert (truthy (Some tok) = true) as -> by by destruct tok.
    simpl andb. cbv iota.
    by rewrite (split_join "/" organization name Ho), (split_no_separator "/" name Hn).
  - unfold repository_url. by rewrite !str_app_assoc.
Qed.

Lemma main_syncs_repository_witness :
  main (args_repository "whatwg/fetch") feed [] "usage" (world_of local_set quiet_store)
  = run (adjust_repository_labels "whatwg" "fetch" "token") (world_of local_set quiet_store)
  ∧ repository_url "whatwg" "fetch"
    = "https://api.github.com/repos/" +:+ ("whatwg" +:+ "/" +:+ "fetch") +:+ "/labels".
Proof.
  by apply (main_syncs_repository (args_repository "whatwg/fetch") "whatwg" "fetch" "token").
Defined.

(** X22. [--repository] with a value that has more than one slash ends
    in the [ValueError] of the unpacking, before anything is sent,
    printed or written. *)
Theorem main_repository_two_slashes (a : args) (r tok : string)
    (w3c_labels : list label) (shortnames : list string) (usage : string) (w : world) :
  import_w3c a = false → update a = false →
  repository a = Some r → (2 ≤ count_char "/" r)%nat →
  token a = Some tok → tok ≠ "" →
  main a w3c_labels shortnames usage w = (Some ValueError, w).
Proof.
  intros Hi Hu Hr Hc Ht Htok. unfold main. rewrite Hi, Hu, Hr, Ht. cbn [from_option id].
  assert (truthy (Some tok) = true) as -> by by destruct tok.
  destruct (truthy (Some r) && has_char "/" r) eqn:E.
  - simpl andb. cbv iota. pose proof (split_length "/" r) as Hlen.
    destruct (split "/" r) as [|x [|y [|z pieces]]]; simpl in Hlen; try lia; done.
  - exfalso. apply andb_false_iff in E as [E|E].
    + destruct r; [simpl in Hc; lia|done].
    + assert (count_char "/" r = 0%nat); [|lia].
      clear -E. induction r as [|c r IH]; [done|]. simpl in *.
      apply orb_false_iff in E as [-> E]. by apply IH.
Qed.

Lemma main_repository_two_slashes_witness :
  main (args_repository "whatwg/fetch/labels") feed [] "usage" (world_of local_set quiet_store)
  = (Some ValueError, world_of local_set quiet_store).
Proof.
  apply (main_repository_two_slashes (args_repository "whatwg/fetch/labels")
           "whatwg/fetch/labels" "token"); try done; simpl; lia.
Defined.

(** X23. [--import-w3c] and [--update] come first: with either flag the
    script sends nothing to GitHub, whatever repository and token are
    given along. *)
Theorem main_import_or_update_sends_nothing (a : args)
    (w3c_labels : list label) (shortnames : list string) (usage : string) (w : world) :
  import_w3c a = true ∨ update a = true →
  requests (main a w3c_labels shortnames usage w).2 = requests w.
Proof.
  intros H. unfold main.
  assert (∀ (m : M unit),
            (∀ w, requests (m w).2 = requests w) → requests (run m w).2 = requests w) as Hrun.
  { intros m Hm. unfold run. specialize (Hm w). by destruct (m w) as [[|] ?]. }
  destruct (import_w3c a).
  - apply Hrun. apply import_w3c_labels_requests.
  - destruct H as [H|H]; [done|]. rewrite H. apply Hrun. intros w'.
    unfold get_labels. run_M. apply update_labels_requests.
Qed.

Lemma main_import_or_update_sends_nothing_witness :
  requests
    (main {| import_w3c := true; update := false; repository := Some "whatwg/fetch";
             all_whatwg_standards := true; token := Some "token" |}
       feed ["fetch"] "usage" (world_of local_set quiet_store)).2
  = requests (world_of local_set quiet_store).
Proof. apply main_import_or_update_sends_nothing. by left. Defined.

(** X24. Without a token, or with an empty one (and without
    [--import-w3c] and [--update]), the script only prints its usage
    line: nothing is sent and nothing is written, whatever
    [--repository] and [--all-whatwg-standards] say. *)
Theorem main_without_token (a : args)
    (w3c_labels : list label) (shortnames : list string) (usage : string) (w : world) :
  import_w3c a = false → update a = false → truthy (token a) = false →
  main a w3c_labels shortnames usage w = (None, add_stdout [usage] w).
Proof.
  intros Hi Hu Ht. unfold main. rewrite Hi, Hu, Ht. by rewrite !andb_false_r.
Qed.

Lemma main_without_token_witness :
  main {| import_w3c := false; update := false; repository := Some "whatwg/fetch";
          all_whatwg_standards := true; token := None |}
    feed ["fetch"] "usage" (world_of local_set quiet_store)
  = (None, add_stdout ["usage"] (world_of local_set quiet_store)).
Proof. by apply main_without_token. Defined.

(** ** Proofs: importing twice *)

Lemma merge_reference L U :
  Forall has_name L → NoDup (key <$> L) →
  Forall upstream_record U → NoDup (key <$> U) →
  (∀ l, l ∈ L → contains "w3c" l = true → ∃ u, u ∈ U ∧ same_name l u = true) →
  merge L U = Ok (reference L U).
Proof.
  intros HL HndL HU HndU Hw.
  destruct (build_index_of [] U []) as (d & Hd & Hof); try done.
  { constructor. }
  { eapply Forall_impl; [exact HU|]. by intros u [? _]. }
  simpl in Hd, Hof.
  destruct (update_local_spec U L HL HndL d U Hof HndU HU Hw) as (d' & Hpass & Hof').
  unfold merge, reference. rewrite Hd. simpl. rewrite Hpass. simpl.
  rewrite (adopt_new_of U d' _ Hof'); [done|]. by apply Forall_filter_list.
Qed.

Lemma feed_record_upstream u : feed_record u → upstream_record u.
Proof.
  intros [(n & d & Hn & Hd) Hc]. unfold upstream_record, has_name. rewrite Hn, Hd. eauto.
Qed.

Lemma documented_has_name l : documented l → has_name l.
Proof. intros (n & d & Hn & _). unfold has_name. by rewrite Hn. Qed.

Lemma same_name_eq_name a b x :
  a !! "name" = b !! "name" → same_name a x = same_name b x.
Proof. intros H. unfold same_name. by rewrite H. Qed.

Lemma merged_record_name l u : merged_record l u !! "name" = l !! "name".
Proof. unfold merged_record. by rewrite !lookup_insert_ne. Qed.

Lemma merged_record_idem l u : merged_record (merged_record l u) u = merged_record l u.
Proof.
  unfold merged_record. apply map_eq. intros k.
  rewrite !lookup_insert. by repeat case_decide.
Qed.

Lemma merged_adopted_record u :
  merged_record (adopted_record u) u = adopted_record u.
Proof.
  unfold merged_record, adopted_record. apply map_eq. intros k.
  rewrite !lookup_insert. repeat case_decide; by simplify_eq.
Qed.

Lemma merged_record_documented l u :
  documented l → feed_record u → documented (merged_record l u).
Proof.
  intros (n & _ & Hn & _) [(_ & d & _ & Hd) _]. exists n, d.
  unfold merged_record, field. rewrite Hd. split.
  - by rewrite !lookup_insert_ne.
  - rewrite !lookup_insert_ne by done. apply lookup_insert_eq.
Qed.

Lemma adopted_record_documented u : feed_record u → documented (adopted_record u).
Proof.
  intros [(n & d & Hn & Hd) _]. exists n, d. unfold adopted_record, field.
  rewrite Hn, Hd. split.
  - apply lookup_insert_eq.
  - rewrite lookup_insert_ne by done. apply lookup_insert_eq.
Qed.

Lemma find_same_name_elem l U u :
  find (same_name l) U = Some u → u ∈ U ∧ same_name l u = true.
Proof. intros [H1 H2]%find_some. split; [by apply list_elem_of_In|done]. Qed.

Lemma reference_documented L U :
  Forall documented L → Forall feed_record U → Forall documented (reference L U).
Proof.
  intros HL HU. unfold reference. apply Forall_app. split.
  - rewrite Forall_forall in HL, HU |- *.
    intros r (l & <- & Hl)%list_elem_of_In%in_map_iff. apply list_elem_of_In in Hl.
    unfold merge_local. destruct (find (same_name l) U) as [u|] eqn:E; [|by apply HL].
    apply find_same_name_elem in E as [Hu _]. apply merged_record_documented; auto.
  - rewrite Forall_forall in HU |- *.
    intros r (u & <- & Hu)%list_elem_of_In%in_map_iff.
    apply filter_In in Hu as [Hu%list_elem_of_In _]. apply adopted_record_documented; auto.
Qed.

Lemma NoDup_key_inj (U : list label) u u' :
  NoDup (key <$> U) → u ∈ U → u' ∈ U → key u = key u' → u = u'.
Proof.
  induction U as [|x U IH]; [by intros _ ?%elem_of_nil|].
  rewrite fmap_cons. intros [Hx Hnd]%NoDup_cons Hu Hu' Hk.
  apply elem_of_cons in Hu as [->|Hu], Hu' as [->|Hu']; try done.
  - destruct Hx. rewrite Hk. by apply list_elem_of_fmap_2.
  - destruct Hx. rewrite <- Hk. by apply list_elem_of_fmap_2.
  - by apply IH.
Qed.

Lemma find_ext {A} (p q : A → bool) l : (∀ x, p x = q x) → find p l = find q l.
Proof. intros H. induction l as [|x l IH]; simpl; [done|]. by rewrite H, IH. Qed.

(** Every record of the reference result is left alone by a merge with
    the same feed. *)
Lemma merge_local_reference L U r :
  Forall has_name U → NoDup (key <$> U) →
  r ∈ reference L U → merge_local U r = r.
Proof.
  intros HU Hnd [Hr|Hr]%elem_of_app.
  - apply list_elem_of_In, in_map_iff in Hr as (l & <- & _).
    unfold merge_local at 2. destruct (find (same_name l) U) as [u|] eqn:E.
    + unfold merge_local.
      rewrite (find_ext _ (same_name l)), E.
      * apply merged_record_idem.
      * intros x. apply same_name_eq_name, merged_record_name.
    + unfold merge_local. by rewrite E.
  - apply list_elem_of_In, in_map_iff in Hr as (u & <- & Hu).
    apply filter_In in Hu as [Hu%list_elem_of_In _].
    assert (has_name u) as Hn by (rewrite Forall_forall in HU; by apply HU).
    unfold merge_local.
    destruct (find (same_name (adopted_record u)) U) as [u'|] eqn:E.
    + apply find_same_name_elem in E as [Hu' Hs].
      apply same_name_key in Hs as [Hk _]. rewrite key_adopted_record in Hk by done.
      assert (u = u') as <- by by apply (NoDup_key_inj U).
      apply merged_adopted_record.
    + done.
Qed.

Lemma reference_fixed L U S :
  Forall has_name U → NoDup (key <$> U) →
  merge L U = Ok (reference L U) → S ≡ₚ reference L U →
  reference S U = S.
Proof.
  intros HU Hnd Hmerge Hperm. unfold reference at 1.
  assert (List.filter (is_new S) U = []) as ->.
  { apply filter_none. apply Forall_forall. intros u Hu.
    destruct (merge_parts _ _ _ Hmerge) as (_ & _ & _ & _ & _ & Hcover).
    destruct (Hcover u Hu) as (r & m & n & Hr & Hm & Hn & Hmn & _).
    unfold is_new. apply negb_false_iff, existsb_exists. exists r. split.
    - apply list_elem_of_In. by rewrite Hperm.
    - unfold same_name. rewrite Hm, Hn. by rewrite py_eq_sym. }
  simpl. rewrite app_nil_r.
  assert (∀ r, r ∈ S → merge_local U r = r) as Hfix.
  { intros r Hr. apply (merge_local_reference L); [done|done|]. by rewrite <- Hperm. }
  clear Hperm. induction S as [|r S IH]; [done|]. simpl.
  rewrite Hfix by left. f_equal. apply IH. intros r' Hr'. apply Hfix. by right.
Qed.

(** ** Theorems: importing twice *)

(** X25. Importing the same feed twice changes nothing the second time.
    For local records with string names and descriptions and feed
    records with string names, descriptions and colours, names unique on
    both sides and every local [w3c] record named in the feed, the import
    succeeds and writes the merged records sorted by name; a second
    import of the same feed then succeeds and leaves [labels.json] and
    [LABELS.md] exactly as the first one wrote them. *)
Theorem import_twice (U : list label) (w : world) :
  Forall documented (labels_json w) → NoDup (key <$> labels_json w) →
  Forall feed_record U → NoDup (key <$> U) →
  (∀ l, l ∈ labels_json w → contains "w3c" l = true → ∃ u, u ∈ U ∧ same_name l u = true) →
  ∃ w1 out,
    import_w3c_labels U w = (Ok tt, w1)
    ∧ labels_json w1 ≡ₚ reference (labels_json w) U
    ∧ StronglySorted name_le (labels_json w1)
    ∧ import_w3c_labels U w1 = (Ok tt, add_stdout out w1).
Proof.
  intros HL HndL HU HndU Hw.
  set (L := labels_json w) in *. set (R := reference L U).
  assert (Forall has_name L) as HLn by (eapply Forall_impl, documented_has_name; done).
  assert (Forall upstream_record U) as HUr by (eapply Forall_impl, feed_record_upstream; done).
  assert (Forall has_name U) as HUn.
  { eapply Forall_impl; [exact HUr|]. by intros u [? _]. }
  assert (merge L U = Ok R) as Hmerge by by apply merge_reference.
  assert (Forall documented R) as HR by by apply reference_documented.
  destruct (sort_by_name_spec R) as (S & Hsort & Hperm & Hsorted & _).
  { eapply Forall_impl, documented_named; done. }
  assert (Forall documented S) as HS by by rewrite Hperm.
  assert (sort_by_name S = Ok S) as HsortS.
  { apply sort_by_name_sorted_id; [|done]. eapply Forall_impl, documented_named; done. }
  assert (merge S U = Ok S) as HmergeS.
  { rewrite <- (reference_fixed L U S HUn HndU Hmerge Hperm) at 2.
    apply merge_reference; try done.
    - eapply Forall_impl, documented_has_name; done.
    - rewrite Hperm. by apply NoDup_keys_reference.
    - intros r Hr Hwr. apply (merge_consistent L U R r); [done| |done].
      by rewrite <- Hperm. }
  destruct (update_labels_spec R w HR) as (S' & Hsort' & Hrun).
  assert (S' = S) as -> by congruence.
  set (w1 := set_labels_md (docs_text S)
               (set_labels_json S (add_stdout (flat_map violations R) w))) in *.
  destruct (update_labels_spec S w1 HS) as (S2 & Hsort2 & Hrun2).
  assert (S2 = S) as -> by congruence.
  exists w1, (flat_map violations S). split; [|split; [done|split; [done|]]].
  - unfold import_w3c_labels, get_labels. run_M. fold L. by rewrite Hmerge.
  - unfold import_w3c_labels, get_labels. run_M.
    change (labels_json w1) with S. rewrite HmergeS. by rewrite Hrun2.
Qed.

Lemma import_twice_witness :
  ∃ w1 out,
    import_w3c_labels feed (world_of local_set quiet_store) = (Ok tt, w1)
    ∧ labels_json w1 ≡ₚ reference (labels_json (world_of local_set quiet_store)) feed
    ∧ StronglySorted name_le (labels_json w1)
    ∧ import_w3c_labels feed w1 = (Ok tt, add_stdout out w1).
Proof.
  apply import_twice.
  - repeat constructor; eexists _, _; split; reflexivity.
  - compute_done.
  - repeat constructor; try (eexists _, _; split; reflexivity); eexists; reflexivity.
  - compute_done.
  - intros l Hl Hwl.
    apply elem_of_cons in Hl as [->|Hl]; [by vm_compute in Hwl|].
    apply list_elem_of_singleton in Hl as ->.
    exists upstream_privacy. split; [left|by vm_compute].
Defined.

(** ** Theorems: further edge cases *)

(** X26. An update that is answered anything but 404 ends the turn for
    its record: no create is sent, nothing is printed for 200, one
    "Updating" failure with the record's name and the status is printed
    otherwise, and the loop goes on with the next record. *)
Theorem update_answered common_url token (l : label) (rest : list label) n d w :
  l !! "name" = Some (JStr n) →
  l !! "description" = Some (JStr d) →
  let patch := update_request common_url token n (sanitized l d) in
  remote w (requests w ++ [patch]) ≠ 404 →
  for_each (l :: rest) (adjust_label common_url token) w =
  for_each rest (adjust_label common_url token)
    (add_stdout (update_report n (remote w (requests w ++ [patch]))) (add_requests [patch] w)).
Proof.
  intros Hn Hd patch H404. rewrite for_each_cons.
  by rewrite (adjust_label_other common_url token l n d w Hn Hd H404).
Qed.

Lemma update_answered_witness :
  let w := world_of local_set quiet_store in
  let patch := update_request "https://h/labels" "token" "security"
                 (sanitized local_security "[Security](https://x/y) issues") in
  for_each (local_security :: [local_privacy]) (adjust_label "https://h/labels" "token") w =
  for_each [local_privacy] (adjust_label "https://h/labels" "token")
    (add_stdout [] (add_requests [patch] w)).
Proof.
  refine (update_answered "https://h/labels" "token" local_security [local_privacy]
            "security" "[Security](https://x/y) issues" (world_of local_set quiet_store)
            eq_refl eq_refl _).
  by vm_compute.
Defined.

Lemma build_index_no_match rest i d d' n :
  build_index rest i d = Ok d' →
  (∀ u m, u ∈ rest → u !! "name" = Some m → py_eq m n = false) →
  index_get n d' = index_get n d.
Proof.
  revert i d. induction rest as [|u rest IH]; intros i d H Hno; simpl in H.
  { by injection H as <-. }
  apply bind_Ok in H as (m & Hm%getitem_Ok & H).
  rewrite (IH _ _ H).
  - rewrite index_get_set. by rewrite (Hno u m) by (done || left).
  - intros u' m' Hu'. apply Hno. by right.
Qed.

Lemma build_index_last front u back i d d' m n :
  build_index (front ++ u :: back) i d = Ok d' →
  u !! "name" = Some m → py_eq m n = true →
  (∀ u' m', u' ∈ back → u' !! "name" = Some m' → py_eq m' n = false) →
  index_get n d' = Some (i + length front)%nat.
Proof.
  revert i d. induction front as [|x front IH]; intros i d H Hm Hmn Hback; simpl in H.
  - apply bind_Ok in H as (m' & Hm'%getitem_Ok & H).
    assert (m' = m) as -> by congruence.
    rewrite (build_index_no_match _ _ _ _ n H Hback), index_get_set, Hmn.
    simpl. by rewrite Nat.add_0_r.
  - apply bind_Ok in H as (m' & _ & H).
    rewrite (IH _ _ H Hm Hmn Hback). simpl. f_equal. lia.
Qed.

(** X27. When the feed lists a name more than once, the last record of
    that name counts: the first local record takes description and
    colour from the last feed record that has its name. *)
Theorem merge_last_upstream_record_wins (l : label) (L front back M : list label) (u : label) :
  merge (l :: L) (front ++ u :: back) = Ok M →
  same_name l u = true →
  (∀ u', u' ∈ back → same_name l u' = false) →
  ∃ M', M = merged_record l u :: M'.
Proof.
  intros (d & L' & d' & A & Hd & HL & HA & ->)%merge_Ok Hs Hback.
  apply update_local_cons_Ok in HL as (n & Hn & HL).
  unfold same_name in Hs. rewrite Hn in Hs.
  destruct (u !! "name") as [m|] eqn:Hm; [|done].
  rewrite (build_index_last front u back 0 [] d m n Hd Hm) in HL.
  - destruct HL as (u' & l' & L1 & d1 & Hu' & Hl' & _ & [= -> ->]).
    simpl in Hu'. rewrite list_lookup_middle in Hu' by done. injection Hu' as <-.
    exists (L1 ++ A). by rewrite (overwrite_merged _ _ _ Hl').
  - by rewrite py_eq_sym.
  - intros u' m' Hu' Hm'. specialize (Hback u' Hu').
    unfold same_name in Hback. rewrite Hn, Hm' in Hback. by rewrite py_eq_sym.
Qed.

Lemma merge_last_upstream_record_wins_witness :
  ∃ M', [adopted_privacy; adopted_i18n] = merged_record local_privacy upstream_privacy :: M'.
Proof.
  apply (merge_last_upstream_record_wins local_privacy []
           [upstream_privacy_old; upstream_i18n] [] [adopted_privacy; adopted_i18n]
           upstream_privacy).
  - by vm_compute.
  - by vm_compute.
  - intros u' Hu'. by apply elem_of_nil in Hu'.
Defined.
